(** * In-memory repository of fyne (internal/repository/memory.go)

    A shallow embedding of [InMemoryRepository] and of its stream handle
    [nodeReaderWriter], followed by the properties of sequential reading
    and writing, of the path checks, of deletion and of listing.

    Conventions of the embedding.
    - [map[string][]byte] is a [gmap string (list byte)]; a Go string is a
      sequence of bytes, here a [string] of 8-bit characters.
    - A method with a pointer receiver takes the objects it can reach as
      its state and hands them back: a repository method runs on the
      repository, a handle method on the pair of the handle and of the
      repository its field [repo] points to.  Two handles opened on one
      repository are two handle values threaded over the same repository.
    - The cursors are Go [int]s that start at 0 and only grow by one while
      they index a live slice, so they are natural numbers here.
    - A run-time panic of Go (an index out of range) is an outcome of its
      own, carrying the state reached when it was raised.
    - A [for] loop is run by [for_loop] with a bound on its iterations; the
      bound each method passes is shown to be enough. *)

From Stdlib Require Import Init.Byte Strings.Ascii.
From stdpp Require Import gmap strings list fin_maps sorting.


(** ** Outcomes and errors *)

(** The errors the file builds.  The first three are the [fmt.Errorf]
    messages of the source, with the path they are formatted with; [EOF]
    is [io.EOF]; [ForeignError] is an error handed back by a callee that
    lives outside this file. *)
Inductive error : Type :=
| ErrNotPresent (p : string)   (* "path '%s' not present in InMemoryRepository" *)
| ErrInvalidPath (p : string)  (* "invalid path '%s'" *)
| ErrNoSuchPath (p : string)   (* "no such path '%s' in InMemoryRepository" *)
| EOF
| ForeignError (msg : string).

(** The error classes the specification speaks of. *)
Definition is_InvalidPath (e : option error) : bool :=
  match e with Some (ErrInvalidPath _) => true | _ => false end.

Definition is_NotFound (e : option error) : bool :=
  match e with Some (ErrNotPresent _) | Some (ErrNoSuchPath _) => true | _ => false end.

Definition is_EndOfStream (e : option error) : bool :=
  match e with Some EOF => true | _ => false end.

Inductive panic : Type :=
| IndexOutOfRange.

Inductive outcome (St A : Type) : Type :=
| Done (a : A) (s : St)
| Panicked (e : panic) (s : St)
| OutOfFuel.

Arguments Done {St A} a s.
Arguments Panicked {St A} e s.
Arguments OutOfFuel {St A}.

(** [for ; cond; post { body }] *)
Fixpoint for_loop {St : Type} (fuel : nat) (cond : St → bool)
    (body : St → outcome St unit) (post : St → St) (s : St) : outcome St unit :=
  match fuel with
  | O => OutOfFuel
  | S fuel' =>
      if cond s then
        match body s with
        | Done _ s' => for_loop fuel' cond body post (post s')
        | Panicked e s' => Panicked e s'
        | OutOfFuel => OutOfFuel
        end
      else Done tt s
  end.

(** ** Slices *)

(** [s[i]]: [None] stands for the index-out-of-range panic. *)
Definition slice_get {A : Type} (s : list A) (i : nat) : option A := s !! i.

(** [s[i] = v]: [None] stands for the index-out-of-range panic. *)
Definition slice_set {A : Type} (s : list A) (i : nat) (v : A) : option (list A) :=
  if decide (i < length s) then Some (<[i := v]> s) else None.

(** [s[len(s)-1]] on a string: the index is -1 on the empty string. *)
Fixpoint last_byte (s : string) : option ascii :=
  match s with
  | EmptyString => None
  | String c EmptyString => Some c
  | String _ s' => last_byte s'
  end.

(** ** Data model *)

(** [nodeReaderWriter].  Its field [repo], a pointer to the repository, is
    the repository the handle is paired with in [handle_state]. *)
Record nodeReaderWriter : Type := mkNode {
  path : string;
  writing : bool;
  readCursor : nat;
  writeCursor : nat
}.

(** [InMemoryRepository] *)
Record InMemoryRepository : Type := mkRepo {
  Data : gmap string (list byte);
  scheme : string
}.

Definition set_Data (m : InMemoryRepository) (d : gmap string (list byte)) :
    InMemoryRepository :=
  {| Data := d; scheme := scheme m |}.

Definition set_writing (n : nodeReaderWriter) (b : bool) : nodeReaderWriter :=
  {| path := path n; writing := b;
     readCursor := readCursor n; writeCursor := writeCursor n |}.

Definition set_readCursor (n : nodeReaderWriter) (c : nat) : nodeReaderWriter :=
  {| path := path n; writing := writing n;
     readCursor := c; writeCursor := writeCursor n |}.

Definition set_writeCursor (n : nodeReaderWriter) (c : nat) : nodeReaderWriter :=
  {| path := path n; writing := writing n;
     readCursor := readCursor n; writeCursor := c |}.

(** [m.Data[k]] read as a value: the zero value (a nil slice) when absent. *)
Definition Data_at (m : InMemoryRepository) (k : string) : list byte :=
  default [] (Data m !! k).

(** [m.Data[k] = v] *)
Definition Data_put (m : InMemoryRepository) (k : string) (v : list byte) :
    InMemoryRepository :=
  set_Data m (<[k := v]> (Data m)).

(** [NewInMemoryRepository] *)
Definition NewInMemoryRepository (scheme : string) : InMemoryRepository :=
  {| Data := ∅; scheme := scheme |}.

(** The state a handle method runs on. *)
Abbreviation handle_state := (nodeReaderWriter * InMemoryRepository)%type.

(** ** Stream handle *)

(** Locals of the copy loop of [Read]: the caller's buffer [p], [count]
    and [j], next to the handle whose [readCursor] the loop advances. *)
Record read_locals : Type := mkReadLocals {
  rl_n : nodeReaderWriter;
  rl_p : list byte;
  rl_count : nat;
  rl_j : nat
}.

Definition Read_cond (data : list byte) (l : read_locals) : bool :=
  bool_decide (rl_j l < length (rl_p l))
  && bool_decide (readCursor (rl_n l) < length data).

Definition Read_body (data : list byte) (l : read_locals) : outcome read_locals unit :=
  match slice_get data (readCursor (rl_n l)) with
  | None => Panicked IndexOutOfRange l
  | Some b =>
      match slice_set (rl_p l) (rl_j l) b with
      | None => Panicked IndexOutOfRange l
      | Some p' =>
          Done tt {| rl_n := rl_n l; rl_p := p';
                     rl_count := S (rl_count l); rl_j := S (rl_j l) |}
      end
  end.

Definition Read_post (l : read_locals) : read_locals :=
  {| rl_n := set_readCursor (rl_n l) (S (readCursor (rl_n l)));
     rl_p := rl_p l; rl_count := rl_count l; rl_j := rl_j l |}.

(** The number of turns the loop has left: what fits in the buffer from
    [j] on, or what the blob holds from the cursor on. *)
Definition Read_left (data : list byte) (l : read_locals) : nat :=
  (length (rl_p l) - rl_j l) `min` (length data - readCursor (rl_n l)).

(** [Read]: the value is the buffer after the call, the count and the
    error. *)
Definition Read (p : list byte) (s : handle_state) :
    outcome handle_state (list byte * nat * option error) :=
  let '(n, m) := s in
  match Data m !! path n with
  | None => Done (p, 0, Some (ErrNotPresent (path n))) (n, m)
  | Some data =>
      match for_loop (S (length p)) (Read_cond data) (Read_body data) Read_post
              {| rl_n := n; rl_p := p; rl_count := 0; rl_j := 0 |} with
      | Done _ l =>
          let err := if bool_decide (length data ≤ readCursor (rl_n l))
                     then Some EOF else None in
          Done (rl_p l, rl_count l, err) (rl_n l, m)
      | Panicked e l => Panicked e (rl_n l, m)
      | OutOfFuel => OutOfFuel
      end
  end.

(** [Close] *)
Definition Close (s : handle_state) : outcome handle_state (option error) :=
  let '(n, m) := s in
  let n := set_readCursor n 0 in
  let n := set_writeCursor n 0 in
  let n := set_writing n false in
  Done None (n, m).

(** Locals of the copy loop of [Write]: [count], next to the handle and
    the repository the loop updates. *)
Record write_locals : Type := mkWriteLocals {
  wl_n : nodeReaderWriter;
  wl_m : InMemoryRepository;
  wl_count : nat
}.

Definition Write_cond (start : nat) (p : list byte) (l : write_locals) : bool :=
  bool_decide (writeCursor (wl_n l) < start + length p).

Definition Write_body (start : nat) (p : list byte) (l : write_locals) :
    outcome write_locals unit :=
  let n := wl_n l in
  (* extend the file if needed *)
  let m :=
    if bool_decide (size (Data (wl_m l)) < writeCursor n + length p)
    then Data_put (wl_m l) (path n) (Data_at (wl_m l) (path n) ++ [x00])
    else wl_m l in
  let l1 := {| wl_n := n; wl_m := m; wl_count := wl_count l |} in
  match slice_get p (writeCursor n - start) with
  | None => Panicked IndexOutOfRange l1
  | Some b =>
      match slice_set (Data_at m (path n)) (writeCursor n) b with
      | None => Panicked IndexOutOfRange l1
      | Some blob =>
          Done tt {| wl_n := n; wl_m := Data_put m (path n) blob;
                     wl_count := S (wl_count l) |}
      end
  end.

Definition Write_post (l : write_locals) : write_locals :=
  {| wl_n := set_writeCursor (wl_n l) (S (writeCursor (wl_n l)));
     wl_m := wl_m l; wl_count := wl_count l |}.

(** [Write] *)
Definition Write (p : list byte) (s : handle_state) :
    outcome handle_state (nat * option error) :=
  let '(n, m) := s in
  (* guarantee that the path exists *)
  let m := match Data m !! path n with
           | Some _ => m
           | None => Data_put m (path n) []
           end in
  (* overwrite the file if we haven't already started writing to it *)
  let '(n, m) := if writing n then (n, m)
                 else (set_writing n true, Data_put m (path n) []) in
  (* copy the data into the node buffer *)
  let start := writeCursor n in
  match for_loop (S (length p)) (Write_cond start p) (Write_body start p) Write_post
          {| wl_n := n; wl_m := m; wl_count := 0 |} with
  | Done _ l => Done (wl_count l, None) (wl_n l, wl_m l)
  | Panicked e l => Panicked e (wl_n l, wl_m l)
  | OutOfFuel => OutOfFuel
  end.

(** ** Strings *)

(** [strings.Split(s, sep)] for a separator of one byte: the pieces of [s]
    between the occurrences of [sep], one more than there are occurrences. *)
Fixpoint strings_Split (s : string) (sep : ascii) : list string :=
  match s with
  | EmptyString => [EmptyString]
  | String c s' =>
      if Ascii.eqb c sep then EmptyString :: strings_Split s' sep
      else match strings_Split s' sep with
           | [] => [String c EmptyString]
           | x :: xs => String c x :: xs
           end
  end.

(** [strings.HasPrefix(s, prefix)] *)
Definition strings_HasPrefix (s prefix : string) : bool := String.prefix prefix s.

Definition slash : ascii := "/"%char.

(** ** Blob store *)

Section Repository.
(** [fyne.URI] is an interface declared outside this file; the
    repository calls its method [Path] only.  [storage.ParseURI] builds a
    URI from a text, or fails. *)
Context {URI : Type}.
Variable Path : URI → string.
Variable ParseURI : string → URI + error.

(** [Exists] *)
Definition Exists (u : URI) (m : InMemoryRepository) :
    outcome InMemoryRepository (bool * option error) :=
  if decide (Path u = "") then Done (false, Some (ErrInvalidPath (Path u))) m
  else
    let ok := bool_decide (is_Some (Data m !! Path u)) in
    Done (ok, None) m.

(** [Reader] *)
Definition Reader (u : URI) (m : InMemoryRepository) :
    outcome InMemoryRepository (option nodeReaderWriter * option error) :=
  if decide (Path u = "") then Done (None, Some (ErrInvalidPath (Path u))) m
  else
    match Data m !! Path u with
    | None => Done (None, Some (ErrNoSuchPath (Path u))) m
    | Some _ =>
        Done (Some {| path := Path u; writing := false;
                      readCursor := 0; writeCursor := 0 |}, None) m
    end.

(** [CanRead] *)
Definition CanRead (u : URI) (m : InMemoryRepository) :
    outcome InMemoryRepository (bool * option error) :=
  if decide (Path u = "") then Done (false, Some (ErrInvalidPath (Path u))) m
  else
    let ok := bool_decide (is_Some (Data m !! Path u)) in
    Done (ok, None) m.

(** [Destroy] *)
Definition Destroy (scheme : string) (m : InMemoryRepository) :
    outcome InMemoryRepository unit :=
  Done tt m.

(** [Writer] *)
Definition Writer (u : URI) (m : InMemoryRepository) :
    outcome InMemoryRepository (option nodeReaderWriter * option error) :=
  if decide (Path u = "") then Done (None, Some (ErrInvalidPath (Path u))) m
  else
    Done (Some {| path := Path u; writing := false;
                  readCursor := 0; writeCursor := 0 |}, None) m.

(** [CanWrite] *)
Definition CanWrite (u : URI) (m : InMemoryRepository) :
    outcome InMemoryRepository (bool * option error) :=
  if decide (Path u = "") then Done (false, Some (ErrInvalidPath (Path u))) m
  else Done (true, None) m.

(** [Delete] *)
Definition Delete (u : URI) (m : InMemoryRepository) :
    outcome InMemoryRepository (option error) :=
  match Data m !! Path u with
  | Some _ => Done None (set_Data m (delete (Path u) (Data m)))
  | None => Done None m
  end.

(** [CanList] *)
Definition CanList (u : URI) (m : InMemoryRepository) :
    outcome InMemoryRepository (bool * option error) :=
  Exists u m.

(** The loop [for p := range m.Data] of [List], run over the keys in the
    order [keys] in which the map hands them out. *)
Fixpoint List_range (m : InMemoryRepository) (prefix : string)
    (prefixSplit : list string) (keys : list string) (listing : list URI) :
    outcome InMemoryRepository (list URI * option error) :=
  match keys with
  | [] => Done (listing, None) m
  | p :: keys' =>
      let pSplit := strings_Split p slash in
      let ncomp := length pSplit in
      match last_byte p with
      | None => Panicked IndexOutOfRange m
      | Some c =>
          let ncomp := if Ascii.eqb c slash then ncomp - 1 else ncomp in
          if strings_HasPrefix p prefix && (ncomp =? length prefixSplit)
          then
            match ParseURI (scheme m +:+ "://" +:+ p) with
            | inr err => Done ([], Some err) m
            | inl uri => List_range m prefix prefixSplit keys' (listing ++ [uri])
            end
          else List_range m prefix prefixSplit keys' listing
      end
  end.

(** [List].  Go leaves the order of [range] over a map open: [keys] is
    the order of this run, see [range_order]. *)
Definition List (keys : list string) (u : URI) (m : InMemoryRepository) :
    outcome InMemoryRepository (list URI * option error) :=
  let prefix := Path u in
  match last_byte prefix with
  | None => Panicked IndexOutOfRange m
  | Some c =>
      let prefix := if Ascii.eqb c slash then prefix else prefix +:+ "/" in
      let prefixSplit := strings_Split prefix slash in
      List_range m prefix prefixSplit keys []
  end.

(** *** Clients of the handles

    What a caller does with the methods above in the properties of a
    whole session. *)

(** Reading a handle until it signals [io.EOF], [bufsize] bytes at a
    time; the value is what was read and the error that stopped the
    reading, if any. *)
Fixpoint read_until_EOF (fuel bufsize : nat) (acc : list byte) (s : handle_state) :
    outcome handle_state (list byte * option error) :=
  match fuel with
  | O => OutOfFuel
  | S fuel' =>
      match Read (replicate bufsize x00) s with
      | Done (p, count, err) s' =>
          let acc := acc ++ take count p in
          match err with
          | None => read_until_EOF fuel' bufsize acc s'
          | Some EOF => Done (acc, None) s'
          | Some e => Done (acc, Some e) s'
          end
      | Panicked e s' => Panicked e s'
      | OutOfFuel => OutOfFuel
      end
  end.

(** Open a writer on [u], write [b], close it. *)
Definition write_file (u : URI) (b : list byte) (m : InMemoryRepository) :
    outcome InMemoryRepository (option error) :=
  match Writer u m with
  | Done (Some w, _) m =>
      match Write b (w, m) with
      | Done _ s =>
          match Close s with
          | Done err (_, m) => Done err m
          | Panicked e (_, m) => Panicked e m
          | OutOfFuel => OutOfFuel
          end
      | Panicked e (_, m) => Panicked e m
      | OutOfFuel => OutOfFuel
      end
  | Done (None, err) m => Done err m
  | Panicked e m => Panicked e m
  | OutOfFuel => OutOfFuel
  end.

(** Open a reader on [u] and read it until the end. *)
Definition read_file (fuel bufsize : nat) (u : URI) (m : InMemoryRepository) :
    outcome InMemoryRepository (list byte * option error) :=
  match Reader u m with
  | Done (Some r, _) m =>
      match read_until_EOF fuel bufsize [] (r, m) with
      | Done res (_, m) => Done res m
      | Panicked e (_, m) => Panicked e m
      | OutOfFuel => OutOfFuel
      end
  | Done (None, err) m => Done ([], err) m
  | Panicked e m => Panicked e m
  | OutOfFuel => OutOfFuel
  end.

(** Write [b] to [u] with a fresh writer, close it, read [u] back with
    a fresh reader. *)
Definition round_trip (fuel bufsize : nat) (u : URI) (b : list byte)
    (m : InMemoryRepository) : outcome InMemoryRepository (list byte * option error) :=
  match write_file u b m with
  | Done None m => read_file fuel bufsize u m
  | Done (Some err) m => Done ([], Some err) m
  | Panicked e m => Panicked e m
  | OutOfFuel => OutOfFuel
  end.

End Repository.

(** [keys] is an order in which [range m.Data] can hand out the keys: each
    stored key once. *)
Definition range_order (m : InMemoryRepository) (keys : list string) : Prop :=
  keys ≡ₚ (map_to_list (Data m)).*1.

(** ** A URI type to run the repository on *)

(** Modelled from the spec: the URI value and its construction
    [parseURI(text)], which builds a URI from a [scheme://path] text and
    are declared outside this file.  They serve to run [List] on examples;
    the theorems on the repository hold for every URI type. *)
Record uri : Type := mkUri { uri_scheme : string; uri_path : string }.

Fixpoint cut_scheme (text : string) : option (string * string) :=
  match text with
  | EmptyString => None
  | String ":" (String "/" (String "/" pth)) => Some (EmptyString, pth)
  | String c rest =>
      match cut_scheme rest with
      | Some (sch, pth) => Some (String c sch, pth)
      | None => None
      end
  end.

Definition parseURI (text : string) : uri + error :=
  match cut_scheme text with
  | Some (sch, pth) => inl {| uri_scheme := sch; uri_path := pth |}
  | None => inr (ForeignError text)
  end.

(** The handle [Reader] and [Writer] build for the path [p]. *)
Definition fresh (p : string) : nodeReaderWriter :=
  {| path := p; writing := false; readCursor := 0; writeCursor := 0 |}.

(** ** The words of the specification on listing *)

(** The number of components of a path: its pieces between separators. *)
Definition component_count (s : string) : nat := length (strings_Split s slash).

Definition ends_with_slash (s : string) : bool :=
  match last_byte s with
  | Some c => Ascii.eqb c slash
  | None => false
  end.

(** The prefix [List] looks for: the path, with a separator added at its
    end unless it has one there. *)
Definition listing_prefix (pth : string) : string :=
  if ends_with_slash pth then pth else pth +:+ "/".

(** A key qualifies iff it starts with the prefix and its component count,
    discounting a single trailing separator, is that of the prefix. *)
Definition qualifies (prefix k : string) : bool :=
  strings_HasPrefix k prefix
  && (component_count k - (if ends_with_slash k then 1 else 0) =? component_count prefix).

(** ** Repositories and URIs of the examples *)

Definition mem_uri (pth : string) : uri := {| uri_scheme := "mem"; uri_path := pth |}.

(** The entries [/a/b], [/a/b/c] and [/a/bc]. *)
Definition repo_abc : InMemoryRepository :=
  {| Data := <["/a/b" := [x01]]> (<["/a/b/c" := [x02]]> (<["/a/bc" := [x03]]> ∅));
     scheme := "mem" |}.

(** A repository with an entry under the empty key, as a test can store
    one in the exported field [Data]. *)
Definition repo_empty_key : InMemoryRepository :=
  {| Data := {[ "" := [x01] ]}; scheme := "mem" |}.

(** ** The URI of a handle *)

Section HandleURI.
Context {URI : Type}.
Variable ParseURI : string → URI + error.

(** [URI] of [nodeReaderWriter]: the URI built from the scheme of the
    repository and the path of the handle.  The error of
    [storage.ParseURI] is discarded; what the method returns then is what
    [storage.ParseURI] returns beside its error, [None] here. *)
Definition nodeReaderWriter_URI (s : handle_state) :
    outcome handle_state (option URI) :=
  let '(n, m) := s in
  match ParseURI (scheme m +:+ "://" +:+ path n) with
  | inl u => Done (Some u) (n, m)
  | inr _ => Done None (n, m)
  end.

End HandleURI.

(** ** The shape of the keys a listing keeps *)

(** What follows [prefix] in [k], when [k] starts with [prefix]. *)
Fixpoint strip_prefix (prefix k : string) : option string :=
  match prefix with
  | EmptyString => Some k
  | String a prefix' =>
      match k with
      | EmptyString => None
      | String b k' => if Ascii.eqb a b then strip_prefix prefix' k' else None
      end
  end.

(** The number of separators of a string. *)
Fixpoint count_slash (s : string) : nat :=
  match s with
  | EmptyString => 0
  | String c s' => (if Ascii.eqb c slash then 1 else 0) + count_slash s'
  end.

(** A name: not empty, and without a separator except for one at its very
    end. *)
Definition child_name (rest : string) : bool :=
  match rest with
  | EmptyString => false
  | String _ _ =>
      (count_slash rest =? 0) || ((count_slash rest =? 1) && ends_with_slash rest)
  end.

(** [k] is [prefix] followed by a name. *)
Definition is_child (prefix k : string) : bool :=
  match strip_prefix prefix k with
  | Some rest => child_name rest
  | None => false
  end.

(** ** What the copy loop of [Write] keeps *)

Section WriteInvariant.
Variables (n0 : nodeReaderWriter) (m0 : InMemoryRepository) (p : list byte).

(** The part of the state the copy loop never touches: the fields of the
    handle other than the cursor, the scheme, the entries of the other
    paths, and the presence of the entry written to. *)
Definition Write_frame (l : write_locals) : Prop :=
  path (wl_n l) = path n0
  ∧ writing (wl_n l) = writing n0
  ∧ readCursor (wl_n l) = readCursor n0
  ∧ scheme (wl_m l) = scheme m0
  ∧ is_Some (Data (wl_m l) !! path n0)
  ∧ ∀ k, k ≠ path n0 → Data (wl_m l) !! k = Data m0 !! k.

(** What has been copied when the cursor is at [writeCursor]: the bytes of
    [p] before it are in the blob, from the offset [writeCursor n0] on. *)
Definition Write_copied (l : write_locals) : Prop :=
  Write_frame l
  ∧ writeCursor n0 ≤ writeCursor (wl_n l) ≤ writeCursor n0 + length p
  ∧ wl_count l = writeCursor (wl_n l) - writeCursor n0
  ∧ ∀ j, j < writeCursor (wl_n l) - writeCursor n0 →
         Data_at (wl_m l) (path n0) !! (writeCursor n0 + j) = p !! j.
End WriteInvariant.

(** The one entry [/p], of three bytes. *)
Definition repo_p : InMemoryRepository :=
  {| Data := {[ "/p" := [x01; x02; x03] ]}; scheme := "mem" |}.

(** A handle on [/p] that has written one byte. *)
Definition writer_at_1 : nodeReaderWriter :=
  {| path := "/p"; writing := true; readCursor := 0; writeCursor := 1 |}.

(** A handle on [/p] that has written five bytes. *)
Definition writer_at_5 : nodeReaderWriter :=
  {| path := "/p"; writing := true; readCursor := 0; writeCursor := 5 |}.

(** A construction of URIs that fails on one text. *)
Definition parseURI_but (bad : string) (text : string) : uri + error :=
  if String.eqb text bad then inr (ForeignError text) else parseURI text.

(** * Properties *)

(** ** Handles: field updates *)

Lemma set_readCursor_id n : set_readCursor n (readCursor n) = n.
Proof. by destruct n. Qed.

Lemma set_writeCursor_id n : set_writeCursor n (writeCursor n) = n.
Proof. by destruct n. Qed.

Lemma set_Data_id m : set_Data m (Data m) = m.
Proof. by destruct m. Qed.

(** ** Slices *)

Lemma slice_set_lt {A} (s : list A) i v :
  i < length s → slice_set s i v = Some (<[i := v]> s).
Proof. intros Hi. unfold slice_set. by rewrite decide_True. Qed.

Lemma slice_set_ge {A} (s : list A) i v :
  length s ≤ i → slice_set s i v = None.
Proof. intros Hi. unfold slice_set. rewrite decide_False; [done | lia]. Qed.

(** ** The copy loop of [Read] *)

Section ReadLoop.
Variable data : list byte.

Lemma Read_loop fuel l :
  length (rl_p l) - rl_j l < fuel →
  for_loop fuel (Read_cond data) (Read_body data) Read_post l =
    Done tt {| rl_n := set_readCursor (rl_n l) (readCursor (rl_n l) + Read_left data l);
               rl_p := take (rl_j l) (rl_p l)
                       ++ take (Read_left data l) (drop (readCursor (rl_n l)) data)
                       ++ drop (rl_j l + Read_left data l) (rl_p l);
               rl_count := rl_count l + Read_left data l;
               rl_j := rl_j l + Read_left data l |}.
Proof.
  revert l. induction fuel as [|fuel IH]; intros [n p count j] Hfuel; [lia|].
  unfold Read_left in *. simpl in *. unfold Read_cond. simpl.
  destruct (decide (j < length p)) as [Hj|Hj];
    [destruct (decide (readCursor n < length data)) as [Hc|Hc]|].
  - rewrite !bool_decide_eq_true_2 by done. simpl.
    unfold Read_body. simpl. unfold slice_get.
    destruct (lookup_lt_is_Some_2 data (readCursor n) Hc) as [b Hb].
    rewrite Hb, slice_set_lt by done.
    unfold Read_post. simpl. rewrite IH by (simpl; rewrite length_insert; lia).
    simpl. rewrite length_insert.
    replace ((length p - j) `min` (length data - readCursor n))
      with (S ((length p - S j) `min` (length data - S (readCursor n)))) by lia.
    set (c := (length p - S j) `min` (length data - S (readCursor n))).
    f_equal. f_equal.
    + destruct n; unfold set_readCursor; simpl. f_equal. lia.
    + rewrite (drop_S data b (readCursor n)) by done. simpl.
      rewrite (take_S_r (<[j:=b]> p) j b) by (by apply list_lookup_insert_eq).
      rewrite take_insert_ge by lia.
      rewrite drop_insert_lt by lia.
      rewrite <- app_assoc. simpl. by replace (j + S c) with (S (j + c)) by lia.
    + lia.
    + lia.
  - rewrite bool_decide_eq_true_2, bool_decide_eq_false_2 by done. simpl.
    replace ((length p - j) `min` (length data - readCursor n)) with 0 by lia.
    rewrite !Nat.add_0_r, set_readCursor_id. simpl.
    by rewrite take_drop.
  - rewrite bool_decide_eq_false_2 by done. simpl.
    replace ((length p - j) `min` (length data - readCursor n)) with 0 by lia.
    rewrite !Nat.add_0_r, set_readCursor_id. simpl.
    by rewrite take_drop.
Qed.
End ReadLoop.

(** [Read] in closed form. *)
Lemma Read_present p n m data :
  Data m !! path n = Some data →
  let c := length p `min` (length data - readCursor n) in
  Read p (n, m) =
    Done (take c (drop (readCursor n) data) ++ drop c p, c,
          if bool_decide (length data ≤ readCursor n + c) then Some EOF else None)
         (set_readCursor n (readCursor n + c), m).
Proof.
  intros Hdata c. unfold Read. rewrite Hdata.
  rewrite Read_loop by (simpl; lia). unfold Read_left. simpl.
  rewrite Nat.sub_0_r. by fold c.
Qed.

Lemma Read_absent p n m :
  Data m !! path n = None →
  Read p (n, m) = Done (p, 0, Some (ErrNotPresent (path n))) (n, m).
Proof. intros Hdata. unfold Read. by rewrite Hdata. Qed.

(** ** The copy loop of [Write] *)

Lemma Data_put_put m k v w : Data_put (Data_put m k v) k w = Data_put m k w.
Proof. unfold Data_put, set_Data. simpl. by rewrite insert_insert_eq. Qed.

Lemma Data_at_put m k v : Data_at (Data_put m k v) k = v.
Proof. unfold Data_at, Data_put. simpl. by rewrite lookup_insert_eq. Qed.

Lemma Data_put_id m k v : Data m !! k = Some v → Data_put m k v = m.
Proof.
  intros Hk. unfold Data_put. rewrite insert_id by done. apply set_Data_id.
Qed.

Lemma size_insert_pos {A} (d : gmap string A) k v : 0 < size (<[k := v]> d).
Proof.
  assert (size (<[k := v]> d) ≠ 0); [|lia].
  apply (map_size_ne_0_lookup_2 _ k). rewrite lookup_insert_eq. eauto.
Qed.

Lemma size_insert_value {A} (d : gmap string A) k v w :
  size (<[k := v]> d) = size (<[k := w]> d).
Proof. by rewrite !map_size_insert. Qed.

Section WriteLoop.
Variables (start : nat) (p : list byte).

(** While the map holds fewer keys than the offset asked for, every
    turn of the loop appends a byte to the blob and overwrites it: the
    blob, whose end the cursor is at, receives the rest of [p]. *)
Lemma Write_loop_extends fuel l d :
  Data (wl_m l) !! path (wl_n l) = Some d →
  length d = writeCursor (wl_n l) →
  start ≤ writeCursor (wl_n l) ≤ start + length p →
  (writeCursor (wl_n l) < start + length p →
   size (Data (wl_m l)) < writeCursor (wl_n l) + length p) →
  start + length p - writeCursor (wl_n l) < fuel →
  for_loop fuel (Write_cond start p) (Write_body start p) Write_post l =
    Done tt {| wl_n := set_writeCursor (wl_n l) (start + length p);
               wl_m := Data_put (wl_m l) (path (wl_n l))
                         (d ++ drop (writeCursor (wl_n l) - start) p);
               wl_count := wl_count l + (start + length p - writeCursor (wl_n l)) |}.
Proof.
  revert l d. induction fuel as [|fuel IH];
    intros [n m count] d Hd Hlen Hwc Hsize Hfuel; [lia|].
  simpl in *. unfold Write_cond. simpl.
  destruct (decide (writeCursor n < start + length p)) as [Hlt|Hge].
  - rewrite bool_decide_eq_true_2 by done.
    unfold Write_body. simpl.
    rewrite bool_decide_eq_true_2 by auto.
    destruct (lookup_lt_is_Some_2 p (writeCursor n - start)) as [b Hb]; [lia|].
    unfold slice_get. rewrite Hb, Data_at_put.
    unfold Data_at at 1. rewrite Hd. simpl.
    rewrite slice_set_lt by (rewrite length_app; simpl; lia).
    rewrite Data_put_put. unfold Write_post. simpl.
    assert (<[writeCursor n := b]> (d ++ [x00]) = d ++ [b]) as ->.
    { rewrite insert_app_r_alt by lia.
      by replace (writeCursor n - length d) with 0 by lia. }
    rewrite (IH _ (d ++ [b])); simpl.
    + f_equal. f_equal; try lia; try (by destruct n).
      rewrite Data_put_put.
      replace (S (writeCursor n) - start) with (S (writeCursor n - start)) by lia.
      rewrite (drop_S p b (writeCursor n - start)) by done.
      by rewrite <- app_assoc.
    + by rewrite lookup_insert_eq.
    + rewrite length_app. simpl. lia.
    + lia.
    + intros _. rewrite map_size_insert_Some by eauto.
      specialize (Hsize Hlt). lia.
    + lia.
  - rewrite bool_decide_eq_false_2 by done.
    assert (writeCursor n = start + length p) as Heq by lia.
    rewrite drop_ge, app_nil_r by lia.
    rewrite Data_put_id by done.
    rewrite <- Heq, set_writeCursor_id.
    by replace (writeCursor n - writeCursor n) with 0 by lia; rewrite Nat.add_0_r.
Qed.

(** The loop stops within the bound [Write] gives it, panic or not. *)
Lemma Write_loop_stops fuel l :
  start ≤ writeCursor (wl_n l) →
  start + length p - writeCursor (wl_n l) < fuel →
  for_loop fuel (Write_cond start p) (Write_body start p) Write_post l ≠ OutOfFuel.
Proof.
  revert l. induction fuel as [|fuel IH]; intros [n m count] Hwc Hfuel; [simpl in *; lia|].
  simpl in *. unfold Write_cond. simpl.
  destruct (decide (writeCursor n < start + length p)) as [Hlt|Hge].
  - rewrite bool_decide_eq_true_2 by done.
    unfold Write_body. simpl.
    destruct (slice_get p (writeCursor n - start)); [|done].
    destruct (slice_set _ _ _); [|done].
    apply IH; simpl; lia.
  - by rewrite bool_decide_eq_false_2.
Qed.

(** When the map holds at least as many keys as the offset asked for,
    nothing is appended, and the store into a blob that ends at or
    before the cursor is out of range. *)
Lemma Write_loop_panics fuel l :
  start ≤ writeCursor (wl_n l) < start + length p →
  writeCursor (wl_n l) + length p ≤ size (Data (wl_m l)) →
  length (Data_at (wl_m l) (path (wl_n l))) ≤ writeCursor (wl_n l) →
  for_loop (S fuel) (Write_cond start p) (Write_body start p) Write_post l =
    Panicked IndexOutOfRange l.
Proof.
  destruct l as [n m count]. simpl. intros Hwc Hsize Hlen.
  unfold Write_cond. simpl. rewrite bool_decide_eq_true_2 by lia.
  unfold Write_body. simpl. rewrite bool_decide_eq_false_2 by lia.
  destruct (lookup_lt_is_Some_2 p (writeCursor n - start)) as [b Hb]; [lia|].
  unfold slice_get. rewrite Hb. by rewrite slice_set_ge.
Qed.
End WriteLoop.

(** ** [Write] in closed form *)

(** The repository the copy loop of a first [Write] starts from: the entry
    is there and empty, whatever it held. *)
Lemma Write_truncates m k :
  Data_put (match Data m !! k with
            | Some _ => m
            | None => Data_put m k []
            end) k [] = Data_put m k [].
Proof. destruct (Data m !! k); [done | apply Data_put_put]. Qed.

(** [Write] returns or panics: its loop never exhausts its bound. *)
Lemma Write_stops p s : Write p s ≠ OutOfFuel.
Proof.
  destruct s as [n m]. unfold Write.
  destruct (writing n); cbv beta iota zeta.
  all: match goal with |- context [for_loop ?f (Write_cond ?st ?q) ?b ?po ?l] =>
         pose proof (Write_loop_stops st q f l) as H;
         destruct (for_loop f (Write_cond st q) b po l) end; try done.
  all: exfalso; apply H; simpl; (done || lia).
Qed.

(** The first [Write] of a session succeeds when it writes nothing or
    more bytes than the map has keys, and then stores exactly [p]. *)
Lemma Write_first_ok p n m :
  writing n = false →
  writeCursor n = 0 →
  (p = [] ∨ size (<[path n := []]> (Data m)) < length p) →
  Write p (n, m) =
    Done (length p, None)
         (set_writeCursor (set_writing n true) (length p), Data_put m (path n) p).
Proof.
  intros Hw Hc Hp. unfold Write. rewrite Hw. cbv beta iota zeta.
  rewrite Write_truncates.
  rewrite (Write_loop_extends _ _ _ _ []); simpl.
  - rewrite Hc, Data_put_put. simpl. by rewrite Nat.sub_0_r, drop_0.
  - by rewrite lookup_insert_eq.
  - by rewrite Hc.
  - lia.
  - rewrite Hc. intros Hlt. destruct Hp as [->|Hp]; [simpl in Hlt; lia|]. simpl. lia.
  - lia.
Qed.

(** The first [Write] of a session panics when it writes at least one
    byte and no more bytes than the map has keys, the entry of the path
    counted in.  The entry is left empty. *)
Lemma Write_first_panics p n m :
  writing n = false →
  writeCursor n = 0 →
  p ≠ [] →
  length p ≤ size (<[path n := []]> (Data m)) →
  Write p (n, m) =
    Panicked IndexOutOfRange (set_writing n true, Data_put m (path n) []).
Proof.
  intros Hw Hc Hp Hsize. unfold Write. rewrite Hw. cbv beta iota zeta.
  rewrite Write_truncates.
  rewrite Write_loop_panics; simpl; [done | | |].
  - rewrite Hc. destruct p; [done | simpl; lia].
  - rewrite Hc. simpl. lia.
  - rewrite Data_at_put. simpl. lia.
Qed.

(** The two cases are all there is: the first [Write] of a session
    returns iff it writes nothing or more bytes than the map has keys. *)
Lemma Write_first_returns_iff p n m :
  writing n = false →
  writeCursor n = 0 →
  (∃ r s, Write p (n, m) = Done r s)
  ↔ (p = [] ∨ size (<[path n := []]> (Data m)) < length p).
Proof.
  intros Hw Hc. split.
  - intros (r & s & Hrs).
    destruct (decide (p = [])) as [|Hp]; [by left | right].
    destruct (decide (size (<[path n := []]> (Data m)) < length p)) as [|Hge]; [done|].
    rewrite Write_first_panics in Hrs; [done | done | done | done | lia].
  - intros Hp. do 2 eexists. by apply Write_first_ok.
Qed.

(** A later [Write] of the session, the cursor being at the end of the
    blob, appends [p] under the same condition on the size of the map. *)
Lemma Write_next_ok p n m d :
  writing n = true →
  Data m !! path n = Some d →
  length d = writeCursor n →
  (p = [] ∨ size (Data m) < writeCursor n + length p) →
  Write p (n, m) =
    Done (length p, None)
         (set_writeCursor n (writeCursor n + length p), Data_put m (path n) (d ++ p)).
Proof.
  intros Hw Hd Hlen Hp. unfold Write. rewrite Hw, Hd. cbv beta iota zeta.
  rewrite (Write_loop_extends _ _ _ _ d); simpl; try done; try lia.
  - by rewrite Nat.sub_diag, drop_0, Nat.add_sub'.
  - intros Hlt. destruct Hp as [->|Hp]; [simpl in Hlt; lia | done].
Qed.

(** ** Reading until the end *)

Lemma read_until_EOF_all fuel bufsize acc n m d :
  Data m !! path n = Some d →
  0 < bufsize →
  length d - readCursor n < fuel →
  read_until_EOF fuel bufsize acc (n, m) =
    Done (acc ++ drop (readCursor n) d, None)
         (set_readCursor n (readCursor n `max` length d), m).
Proof.
  intros Hd Hbuf. revert acc n Hd.
  induction fuel as [|fuel IH]; intros acc n Hd Hfuel; [lia|].
  cbn [read_until_EOF]. rewrite (Read_present _ _ _ d) by done.
  rewrite length_replicate.
  set (c := bufsize `min` (length d - readCursor n)).
  rewrite take_app_length' by (rewrite length_take, length_drop; lia).
  destruct (decide (length d ≤ readCursor n + c)) as [Hend|Hmore].
  - rewrite bool_decide_eq_true_2 by done.
    rewrite take_ge by (rewrite length_drop; lia).
    do 3 f_equal. lia.
  - rewrite bool_decide_eq_false_2 by done.
    rewrite IH by (simpl; (done || lia)). simpl.
    rewrite <- app_assoc, <- (drop_drop d c), take_drop.
    unfold set_readCursor. simpl. do 2 f_equal. subst c. f_equal. lia.
Qed.

(** ** Sequential writing *)

(** C1. [Write] is claimed to extend the blob so that every store of the
    copy loop is in bounds.  The growth test of the loop compares the
    number of keys of the map, not the length of the blob, with the offset:
    the first [Write] of one byte through a fresh handle, on any
    repository and any path, appends nothing and panics on the store into
    the empty blob at index 0. *)
Theorem Write_one_byte_out_of_bounds (pth : string) (b : byte)
    (m : InMemoryRepository) :
  Write [b] (fresh pth, m) =
    Panicked IndexOutOfRange (set_writing (fresh pth) true, Data_put m pth []).
Proof.
  apply (Write_first_panics [b] (fresh pth) m); try done.
  simpl. pose proof (size_insert_pos (Data m) pth []). lia.
Qed.

(** When the first [Write] of a session does not panic, what the two
    first calls of the session leave in the entry is the concatenation of
    their buffers. *)
Lemma Write_twice_concatenates pth b1 b2 m :
  (b1 = [] ∨ size (<[pth := []]> (Data m)) < length b1) →
  (b2 = [] ∨ size (<[pth := []]> (Data m)) < length b1 + length b2) →
  ∃ n1 m1 n2,
    Write b1 (fresh pth, m) = Done (length b1, None) (n1, m1) ∧
    Write b2 (n1, m1) = Done (length b2, None) (n2, Data_put m pth (b1 ++ b2)) ∧
    writeCursor n2 = length b1 + length b2.
Proof.
  intros H1 H2. do 3 eexists. split; [by apply Write_first_ok|].
  split.
  - rewrite (Write_next_ok b2 _ _ b1); simpl; try done.
    + by rewrite Data_put_put.
    + by rewrite lookup_insert_eq.
    + destruct H2 as [->|H2]; [by left | right].
      by rewrite (size_insert_value _ _ _ []).
  - done.
Qed.

(** A fresh writer replaces what the entry held, under the same
    condition. *)
Lemma Write_fresh_replaces pth b3 old m :
  Data m !! pth = Some old →
  (b3 = [] ∨ size (Data m) < length b3) →
  ∃ n', Write b3 (fresh pth, m) = Done (length b3, None) (n', Data_put m pth b3).
Proof.
  intros Hold H3. eexists. apply Write_first_ok; try done.
  destruct H3 as [->|H3]; [by left | right].
  simpl. by rewrite map_size_insert_Some.
Qed.

(** C3. Truncation on the first [Write] and concatenation afterwards are
    what the code does as long as no store panics.  On a new repository a
    first session writes two bytes and is closed; the entry holds them.  A
    second fresh writer on the same path then writes the single byte 9:
    the entry is truncated, the store panics, and the entry is left empty
    instead of holding the byte.  Writing one byte and then another on one
    handle panics on the first of the two calls. *)
Theorem Write_replace_one_byte_panics :
  let m0 := NewInMemoryRepository "mem" in
  let m1 := Data_put m0 "/p" [x01; x02] in
  Write [x01; x02] (fresh "/p", m0)
    = Done (2, None) (set_writeCursor (set_writing (fresh "/p") true) 2, m1)
  ∧ Close (set_writeCursor (set_writing (fresh "/p") true) 2, m1)
    = Done None (fresh "/p", m1)
  ∧ Write [x09] (fresh "/p", m1)
    = Panicked IndexOutOfRange (set_writing (fresh "/p") true, Data_put m0 "/p" [])
  ∧ Write [x01] (fresh "/p", m0)
    = Panicked IndexOutOfRange (set_writing (fresh "/p") true, Data_put m0 "/p" []).
Proof. repeat split; vm_compute; reflexivity. Qed.

(** ** Sequential reading *)

(** C5. [Read] fails with the not-found error, copying nothing, when the
    path of the handle has no entry at the time of the call.  Otherwise it
    copies [min(len(buffer), blobLength - readCursor)] bytes from
    [readCursor] on to the front of the buffer (none when the cursor is
    past the end), advances [readCursor] by that count, and returns
    [io.EOF] exactly when the advanced cursor has reached the length of
    the blob; from then on every call copies nothing and returns [io.EOF]
    again. *)
Theorem Read_copies_and_signals_EOF (p : list byte) (n : nodeReaderWriter)
    (m : InMemoryRepository) :
  match Data m !! path n with
  | None =>
      Read p (n, m) = Done (p, 0, Some (ErrNotPresent (path n))) (n, m)
      ∧ is_NotFound (Some (ErrNotPresent (path n))) = true
  | Some data =>
      let c := length p `min` (length data - readCursor n) in
      let n' := set_readCursor n (readCursor n + c) in
      ∃ err,
        Read p (n, m) =
          Done (take c (drop (readCursor n) data) ++ drop c p, c, err) (n', m)
        ∧ (err = Some EOF ↔ length data ≤ readCursor n')
        ∧ (err = None ↔ readCursor n' < length data)
        ∧ (∀ q, err = Some EOF → Read q (n', m) = Done (q, 0, Some EOF) (n', m))
  end.
Proof.
  destruct (Data m !! path n) as [data|] eqn:Hdata.
  - intros c n'. eexists. split; [by apply Read_present|]. fold c.
    assert (readCursor n' = readCursor n + c) as Hn' by done.
    assert (Data m !! path n' = Some data) as Hdata' by done.
    rewrite Hn'.
    destruct (decide (length data ≤ readCursor n + c)) as [Hend|Hmore].
    + rewrite bool_decide_eq_true_2 by done.
      repeat split; try done; try lia.
      intros q _. rewrite (Read_present q n' m data Hdata'), Hn'.
      replace (length q `min` (length data - (readCursor n + c))) with 0 by lia.
      rewrite Nat.add_0_r, bool_decide_eq_true_2 by done.
      rewrite <- Hn', set_readCursor_id. simpl. by rewrite drop_0.
    + rewrite bool_decide_eq_false_2 by done.
      repeat split; try done; lia.
  - split; [by apply Read_absent | done].
Qed.

(** ** Closing *)

(** C8. [Close] puts the cursors and the flag [writing] back to the
    values they have in a handle just opened, returns no error, and leaves
    the path of the handle and the repository as they are; closing the
    closed handle changes nothing. *)
Theorem Close_resets_handle (n : nodeReaderWriter) (m : InMemoryRepository) :
  ∃ n',
    Close (n, m) = Done None (n', m)
    ∧ readCursor n' = 0 ∧ writeCursor n' = 0 ∧ writing n' = false
    ∧ path n' = path n
    ∧ n' = fresh (path n)
    ∧ Close (n', m) = Done None (n', m).
Proof. by exists (fresh (path n)). Qed.

(** ** Strings *)

Lemma last_byte_is_Some s : s ≠ EmptyString → is_Some (last_byte s).
Proof.
  induction s as [|c s IH]; [done|]. intros _.
  destruct s as [|c' s]; [by eexists|].
  apply IH. done.
Qed.

(** ** The blob store *)

Section RepositoryProperties.
Context {URI : Type}.
Variable Path : URI → string.
Variable ParseURI : string → URI + error.

(** C6. On a URI whose path is empty, [Exists], [CanRead], [CanWrite],
    [Reader] and [Writer] return the invalid-path error, and the
    repository they return in is the one they were called on. *)
Theorem empty_path_is_rejected (u : URI) (m : InMemoryRepository) :
  Path u = "" →
  Exists Path u m = Done (false, Some (ErrInvalidPath "")) m
  ∧ CanRead Path u m = Done (false, Some (ErrInvalidPath "")) m
  ∧ CanWrite Path u m = Done (false, Some (ErrInvalidPath "")) m
  ∧ Reader Path u m = Done (None, Some (ErrInvalidPath "")) m
  ∧ Writer Path u m = Done (None, Some (ErrInvalidPath "")) m
  ∧ is_InvalidPath (Some (ErrInvalidPath "")) = true.
Proof.
  intros Hu. unfold Exists, CanRead, CanWrite, Reader, Writer.
  rewrite Hu. by rewrite decide_True.
Qed.

(** C7. [Delete] returns no error on every path.  The entry of the path
    is gone afterwards, the entries of the other paths and the scheme
    are as before, and a path without an entry leaves the repository as
    it is; a second [Delete] of the path again returns no error and
    changes nothing. *)
Theorem Delete_removes_silently (u : URI) (m : InMemoryRepository) :
  ∃ m',
    Delete Path u m = Done None m'
    ∧ Data m' = delete (Path u) (Data m)
    ∧ scheme m' = scheme m
    ∧ Data m' !! Path u = None
    ∧ (∀ k, k ≠ Path u → Data m' !! k = Data m !! k)
    ∧ (Data m !! Path u = None → m' = m)
    ∧ Delete Path u m' = Done None m'.
Proof.
  unfold Delete. destruct (Data m !! Path u) as [d|] eqn:Hd.
  - eexists. split; [done|]. simpl. rewrite lookup_delete_eq.
    repeat split; try done.
    intros k Hk. by rewrite lookup_delete_ne.
  - exists m. rewrite Hd. repeat split; try done.
    by rewrite delete_id.
Qed.

(** C10, as amended.  [Delete] does not check the path: on a URI whose
    path is empty it returns no error and removes the entry stored
    under the empty key, if there is one; a repository without such an
    entry is left as it is. *)
Theorem Delete_empty_path (u : URI) (m : InMemoryRepository) :
  Path u = "" →
  Delete Path u m = Done None (set_Data m (delete "" (Data m)))
  ∧ (Data m !! "" = None → Delete Path u m = Done None m).
Proof.
  intros Hu. unfold Delete. rewrite Hu.
  destruct (Data m !! "") as [d|] eqn:Hd.
  - by split.
  - rewrite delete_id by done. by rewrite set_Data_id.
Qed.

(** C9. On a URI whose path is empty, [List] returns neither a listing
    nor an error: the index [len(prefix)-1] is out of range and the call
    panics, whatever the repository holds. *)
Theorem List_empty_path_panics (keys : list string) (u : URI)
    (m : InMemoryRepository) :
  Path u = "" →
  List Path ParseURI keys u m = Panicked IndexOutOfRange m.
Proof. intros Hu. unfold List. by rewrite Hu. Qed.

(** *** Listing *)

(** The test of the loop of [List] on a key is [qualifies]. *)
Lemma List_test_qualifies prefix k c :
  last_byte k = Some c →
  strings_HasPrefix k prefix
  && ((if Ascii.eqb c slash
       then length (strings_Split k slash) - 1
       else length (strings_Split k slash))
      =? length (strings_Split prefix slash))
  = qualifies prefix k.
Proof.
  intros Hc. unfold qualifies, component_count, ends_with_slash. rewrite Hc.
  destruct (Ascii.eqb c slash); [done|]. by rewrite Nat.sub_0_r.
Qed.

Lemma List_range_children m prefix keys acc :
  Forall (λ k, k ≠ "") keys →
  (∀ k, k ∈ keys → qualifies prefix k →
        ∃ uri, ParseURI (scheme m +:+ "://" +:+ k) = inl uri) →
  ∃ l,
    List_range ParseURI m prefix (strings_Split prefix slash) keys acc
      = Done (acc ++ l, None) m
    ∧ Forall2 (λ k uri, ParseURI (scheme m +:+ "://" +:+ k) = inl uri)
        (filter (λ k, Is_true (qualifies prefix k)) keys) l.
Proof.
  revert acc. induction keys as [|k keys IH]; intros acc Hne Hparse.
  - exists []. simpl. rewrite app_nil_r. split; [done | constructor].
  - apply Forall_cons in Hne as [Hk Hne].
    destruct (last_byte_is_Some k Hk) as [c Hc].
    cbn [List_range]. rewrite Hc. cbv zeta.
    rewrite (List_test_qualifies prefix k c Hc).
    destruct (qualifies prefix k) eqn:Hq.
    + destruct (Hparse k) as [uri Huri]; [by left | by rewrite Hq |].
      rewrite Huri.
      destruct (IH (acc ++ [uri]) Hne) as (l & Hl & HF).
      { intros k' Hk'. apply Hparse. by right. }
      exists (uri :: l). rewrite Hl, <- app_assoc. split; [done|].
      rewrite filter_cons_True by (by rewrite Hq). by constructor.
    + destruct (IH acc Hne) as (l & Hl & HF).
      { intros k' Hk'. apply Hparse. by right. }
      exists l. split; [done|].
      rewrite filter_cons_False; [done | rewrite Hq; simpl; tauto].
Qed.

Lemma range_order_elem_of m keys k :
  range_order m keys → k ∈ keys ↔ is_Some (Data m !! k).
Proof.
  unfold range_order. intros ->. rewrite list_elem_of_fmap. split.
  - intros [[k' v] [-> Hkv]]. apply elem_of_map_to_list in Hkv. by eexists.
  - intros [v Hv]. exists (k, v). split; [done|]. by apply elem_of_map_to_list.
Qed.

Lemma range_order_NoDup m keys : range_order m keys → NoDup keys.
Proof. unfold range_order. intros ->. apply NoDup_fst_map_to_list. Qed.

(** C4, as amended.  On a repository no key of which is the empty
    string and a URI with a non-empty path, [List] returns without
    error, as long as a URI can be built for each qualifying key, the
    URIs built from the scheme and the qualifying keys, in the order in
    which the map hands out its keys: each stored key that qualifies
    once, and nothing else.  A key qualifies when it starts with the
    prefix (the path, with a separator added at its end unless it has
    one there) and its component count, discounting one trailing
    separator, is the component count of the prefix. *)
Theorem List_immediate_children (keys : list string) (u : URI)
    (m : InMemoryRepository) :
  Path u ≠ "" →
  Data m !! "" = None →
  range_order m keys →
  (∀ k, is_Some (Data m !! k) → qualifies (listing_prefix (Path u)) k →
        ∃ uri, ParseURI (scheme m +:+ "://" +:+ k) = inl uri) →
  ∃ listing,
    List Path ParseURI keys u m = Done (listing, None) m
    ∧ Forall2 (λ k uri, ParseURI (scheme m +:+ "://" +:+ k) = inl uri)
        (filter (λ k, Is_true (qualifies (listing_prefix (Path u)) k)) keys)
        listing
    ∧ NoDup (filter (λ k, Is_true (qualifies (listing_prefix (Path u)) k)) keys)
    ∧ ∀ k, k ∈ filter (λ k, Is_true (qualifies (listing_prefix (Path u)) k)) keys
           ↔ is_Some (Data m !! k) ∧ qualifies (listing_prefix (Path u)) k.
Proof.
  intros Hu Hempty Horder Hparse.
  destruct (last_byte_is_Some (Path u) Hu) as [c Hc].
  destruct (List_range_children m (listing_prefix (Path u)) keys []) as (l & Hl & HF).
  - apply Forall_forall. intros k Hk ->.
    apply (range_order_elem_of m keys "" Horder) in Hk.
    rewrite Hempty in Hk. by destruct Hk.
  - intros k Hk. apply Hparse. by apply (range_order_elem_of m keys k Horder).
  - exists l. split; [|split; [done|split]].
    + unfold List. rewrite Hc. cbv zeta.
      unfold listing_prefix, ends_with_slash in Hl. rewrite Hc in Hl. apply Hl.
    + apply NoDup_filter. by apply (range_order_NoDup m).
    + intros k. rewrite list_elem_of_filter.
      rewrite (range_order_elem_of m keys k Horder). tauto.
Qed.

(** *** Writing a blob and reading it back *)

(** When the [Write] does not panic, the round trip hands back the
    bytes written. *)
Lemma round_trip_ok fuel bufsize u b m :
  Path u ≠ "" →
  (b = [] ∨ size (<[Path u := []]> (Data m)) < length b) →
  0 < bufsize →
  length b < fuel →
  round_trip Path fuel bufsize u b m = Done (b, None) (Data_put m (Path u) b).
Proof.
  intros Hu Hb Hbuf Hfuel. unfold round_trip, write_file, Writer.
  rewrite decide_False by done.
  rewrite Write_first_ok by done.
  cbn [Close]. unfold read_file, Reader. rewrite decide_False by done.
  cbn [Data Data_put set_Data]. rewrite lookup_insert_eq.
  rewrite (read_until_EOF_all _ _ _ _ _ b); cbn; try done.
  - by rewrite lookup_insert_eq.
  - lia.
Qed.

(** C2. The round trip is claimed for every byte sequence and every
    repository.  With a sequence of one byte the [Write] of the fresh
    writer panics, on every repository and every non-empty path: nothing
    is read back, and the entry of the path is left empty. *)
Theorem round_trip_one_byte_panics (fuel bufsize : nat) (u : URI) (b : byte)
    (m : InMemoryRepository) :
  Path u ≠ "" →
  round_trip Path fuel bufsize u [b] m
    = Panicked IndexOutOfRange (Data_put m (Path u) []).
Proof.
  intros Hu. unfold round_trip, write_file, Writer.
  rewrite decide_False by done.
  change {| path := Path u; writing := false; readCursor := 0; writeCursor := 0 |}
    with (fresh (Path u)).
  rewrite Write_first_panics; try done.
  simpl. pose proof (size_insert_pos (Data m) (Path u) []). lia.
Qed.

End RepositoryProperties.

(** ** Examples on the URIs of the scheme [mem] *)

Lemma parseURI_mem (pth : string) : parseURI ("mem" +:+ "://" +:+ pth) = inl (mem_uri pth).
Proof. reflexivity. Qed.

Lemma range_order_repo_abc : range_order repo_abc ["/a/b"; "/a/b/c"; "/a/bc"].
Proof. unfold range_order. apply (bool_decide_unpack _). vm_compute. exact I. Qed.

Lemma empty_path_is_rejected_witness :
  uri_path (mem_uri "") = ""
  ∧ Exists uri_path (mem_uri "") repo_abc
    = Done (false, Some (ErrInvalidPath "")) repo_abc
  ∧ Writer uri_path (mem_uri "") repo_abc
    = Done (None, Some (ErrInvalidPath "")) repo_abc.
Proof.
  split; [reflexivity|].
  destruct (empty_path_is_rejected uri_path (mem_uri "") repo_abc)
    as (He & _ & _ & _ & Hw & _); [reflexivity|].
  exact (conj He Hw).
Defined.

Lemma List_empty_path_panics_witness :
  uri_path (mem_uri "") = ""
  ∧ List uri_path parseURI ["/a/b"; "/a/b/c"; "/a/bc"] (mem_uri "") repo_abc
    = Panicked IndexOutOfRange repo_abc.
Proof.
  split; [reflexivity|].
  apply (List_empty_path_panics uri_path parseURI). reflexivity.
Defined.

Lemma Delete_empty_path_witness :
  uri_path (mem_uri "") = ""
  ∧ Delete uri_path (mem_uri "") repo_empty_key
    = Done None (set_Data repo_empty_key (delete "" (Data repo_empty_key)))
  ∧ (Data repo_abc !! "" = None
     → Delete uri_path (mem_uri "") repo_abc = Done None repo_abc).
Proof.
  split; [reflexivity|]. split.
  - apply (Delete_empty_path uri_path (mem_uri "") repo_empty_key). reflexivity.
  - apply (Delete_empty_path uri_path (mem_uri "") repo_abc). reflexivity.
Defined.

(** The claim C10 on [repo_empty_key]: [Delete] on the empty path returns
    no error and the mapping [Data] has changed, its one entry is gone. *)
Lemma Delete_empty_path_counterexample :
  uri_path (mem_uri "") = ""
  ∧ Delete uri_path (mem_uri "") repo_empty_key
    = Done None (set_Data repo_empty_key ∅)
  ∧ Data (set_Data repo_empty_key ∅) ≠ Data repo_empty_key.
Proof.
  split; [reflexivity|]. split; [vm_compute; reflexivity|].
  simpl. intros Heq.
  assert ((∅ : gmap string (list byte)) !! "" = Some [x01]) as Hl.
  { rewrite Heq. apply lookup_singleton_eq. }
  by rewrite lookup_empty in Hl.
Qed.

(** The claim C4 on [repo_empty_key]: the path [/a] is not empty, and
    [List] panics on the key of the repository instead of returning a
    listing. *)
Lemma List_empty_key_counterexample :
  uri_path (mem_uri "/a") ≠ ""
  ∧ range_order repo_empty_key [""]
  ∧ List uri_path parseURI [""] (mem_uri "/a") repo_empty_key
    = Panicked IndexOutOfRange repo_empty_key.
Proof.
  split; [done|]. split; [|reflexivity].
  unfold range_order. apply (bool_decide_unpack _). vm_compute. exact I.
Qed.

(** The entries [/a/b], [/a/b/c] and [/a/bc]: listing [/a] gives [/a/b]
    and [/a/bc]. *)
Lemma List_immediate_children_witness :
  ∃ listing,
    List uri_path parseURI ["/a/b"; "/a/b/c"; "/a/bc"] (mem_uri "/a") repo_abc
      = Done (listing, None) repo_abc
    ∧ Forall2 (λ k uri, parseURI (scheme repo_abc +:+ "://" +:+ k) = inl uri)
        (filter (λ k, Is_true (qualifies (listing_prefix (uri_path (mem_uri "/a"))) k))
           ["/a/b"; "/a/b/c"; "/a/bc"])
        listing
    ∧ NoDup (filter (λ k, Is_true (qualifies (listing_prefix (uri_path (mem_uri "/a"))) k))
               ["/a/b"; "/a/b/c"; "/a/bc"])
    ∧ ∀ k, k ∈ filter (λ k, Is_true (qualifies (listing_prefix (uri_path (mem_uri "/a"))) k))
                 ["/a/b"; "/a/b/c"; "/a/bc"]
           ↔ is_Some (Data repo_abc !! k)
             ∧ qualifies (listing_prefix (uri_path (mem_uri "/a"))) k.
Proof.
  apply (List_immediate_children uri_path parseURI).
  - simpl. discriminate.
  - vm_compute. reflexivity.
  - exact range_order_repo_abc.
  - intros k _ _. exists (mem_uri k). apply parseURI_mem.
Defined.

Example List_a_in_repo_abc :
  List uri_path parseURI ["/a/b"; "/a/b/c"; "/a/bc"] (mem_uri "/a") repo_abc
    = Done ([mem_uri "/a/b"; mem_uri "/a/bc"], None) repo_abc.
Proof. vm_compute. reflexivity. Qed.

(** The prefix is not brought down to one trailing separator: a path that
    ends with two of them is searched as it is, and finds no child. *)
Example List_a_two_slashes_in_repo_abc :
  listing_prefix "/a//" = "/a//"
  ∧ List uri_path parseURI ["/a/b"; "/a/b/c"; "/a/bc"] (mem_uri "/a//") repo_abc
    = Done ([], None) repo_abc.
Proof. split; vm_compute; reflexivity. Qed.

Lemma round_trip_one_byte_panics_witness :
  uri_path (mem_uri "/p") ≠ ""
  ∧ round_trip uri_path 8 4 (mem_uri "/p") [x01] (NewInMemoryRepository "mem")
    = Panicked IndexOutOfRange (Data_put (NewInMemoryRepository "mem") "/p" []).
Proof.
  split; [simpl; discriminate|].
  apply (round_trip_one_byte_panics uri_path 8 4 (mem_uri "/p") x01). simpl. discriminate.
Defined.

Example round_trip_five_bytes :
  round_trip uri_path 8 4 (mem_uri "/a") [x01; x02; x03; x04; x05] repo_abc
    = Done ([x01; x02; x03; x04; x05], None)
           (Data_put repo_abc "/a" [x01; x02; x03; x04; x05]).
Proof. vm_compute. reflexivity. Qed.

(** * Further properties *)

(** ** Loops and their invariants *)

(** A property kept by every turn of a loop holds when the loop is left,
    where its test fails; a panic is raised in a state the body names. *)
Lemma for_loop_invariant {St : Type} (I Q : St → Prop) fuel cond body post (s : St) :
  I s →
  (∀ s, I s → cond s = true →
        match body s with
        | Done _ s' => I (post s')
        | Panicked _ s' => Q s'
        | OutOfFuel => True
        end) →
  match for_loop fuel cond body post s with
  | Done _ s' => I s' ∧ cond s' = false
  | Panicked _ s' => Q s'
  | OutOfFuel => True
  end.
Proof.
  intros Hs Hbody. revert s Hs. induction fuel as [|fuel IH]; intros s Hs; [done|].
  simpl. destruct (cond s) eqn:Hcond; [|done].
  specialize (Hbody s Hs Hcond). destruct (body s) as [[] s'|e s'|]; [|done|done].
  by apply IH.
Qed.

(** ** What [Write] keeps and what it leaves behind *)

Lemma Write_body_keeps n0 m0 p l :
  Write_copied n0 m0 p l →
  Write_cond (writeCursor n0) p l = true →
  match Write_body (writeCursor n0) p l with
  | Done _ l' => Write_copied n0 m0 p (Write_post l')
  | Panicked _ l' => Write_frame n0 m0 l'
  | OutOfFuel => True
  end.
Proof.
  destruct l as [n m count].
  intros ((Hpath & Hw & Hr & Hsch & Hsome & Hother) & Hwc & Hcount & Hcopied) Hcond.
  simpl in *. unfold Write_cond in Hcond. simpl in Hcond.
  apply bool_decide_eq_true_1 in Hcond.
  unfold Write_body. simpl. rewrite Hpath.
  set (m1 := if bool_decide (size (Data m) < writeCursor n + length p)
             then Data_put m (path n0) (Data_at m (path n0) ++ [x00]) else m).
  assert (Write_frame n0 m0 {| wl_n := n; wl_m := m1; wl_count := count |}) as Hframe1.
  { unfold Write_frame, m1. simpl. repeat split; try done.
    - by destruct (bool_decide _).
    - destruct (bool_decide _); [|done]. simpl. rewrite lookup_insert_eq. eauto.
    - intros k Hk. destruct (bool_decide _); [|by apply Hother].
      simpl. rewrite lookup_insert_ne by done. by apply Hother. }
  assert (∀ j, j < writeCursor n - writeCursor n0 →
               Data_at m1 (path n0) !! (writeCursor n0 + j) = p !! j) as Hcopied1.
  { intros j Hj. rewrite <- (Hcopied j Hj). unfold m1.
    destruct (bool_decide _); [|done]. rewrite Data_at_put.
    apply lookup_app_l. apply lookup_lt_is_Some.
    rewrite (Hcopied j Hj). apply lookup_lt_is_Some_2. lia. }
  destruct (lookup_lt_is_Some_2 p (writeCursor n - writeCursor n0)) as [b Hb]; [lia|].
  unfold slice_get. rewrite Hb. unfold slice_set.
  destruct (decide (writeCursor n < length (Data_at m1 (path n0)))) as [Hlt|Hge];
    [|done].
  unfold Write_post, Write_copied, Write_frame. simpl.
  destruct Hframe1 as (_ & _ & _ & Hsch1 & Hsome1 & Hother1). simpl in *.
  repeat split; try done; try lia.
  - rewrite lookup_insert_eq. eauto.
  - intros k Hk. rewrite lookup_insert_ne by done. by apply Hother1.
  - intros j Hj. unfold Data_at at 1. simpl. rewrite lookup_insert_eq. simpl.
    destruct (decide (j = writeCursor n - writeCursor n0)) as [->|Hne].
    + replace (writeCursor n0 + (writeCursor n - writeCursor n0))
        with (writeCursor n) by lia.
      by rewrite list_lookup_insert_eq.
    + rewrite list_lookup_insert_ne by lia. apply Hcopied1. lia.
Qed.

(** The state [Write] reaches, return or panic, seen from the state its
    copy loop starts in. *)
Lemma Write_loop_keeps n0 m0 p fuel :
  is_Some (Data m0 !! path n0) →
  match for_loop fuel (Write_cond (writeCursor n0) p) (Write_body (writeCursor n0) p)
          Write_post {| wl_n := n0; wl_m := m0; wl_count := 0 |} with
  | Done _ l => Write_copied n0 m0 p l
                ∧ writeCursor (wl_n l) = writeCursor n0 + length p
  | Panicked _ l => Write_frame n0 m0 l
  | OutOfFuel => True
  end.
Proof.
  intros Hsome.
  assert (Write_copied n0 m0 p {| wl_n := n0; wl_m := m0; wl_count := 0 |}) as Hinit.
  { unfold Write_copied, Write_frame. simpl. repeat split; try done; lia. }
  pose proof (for_loop_invariant (Write_copied n0 m0 p) (Write_frame n0 m0) fuel
                (Write_cond (writeCursor n0) p) (Write_body (writeCursor n0) p)
                Write_post _ Hinit (Write_body_keeps n0 m0 p)) as Hinv.
  destruct (for_loop _ _ _ _ _) as [[] l|e l|]; [|done|done].
  destruct Hinv as [Hl Hcond]. split; [done|].
  unfold Write_cond in Hcond. apply bool_decide_eq_false_1 in Hcond.
  destruct Hl as (_ & Hwc & _). lia.
Qed.

(** [Write] seen from the state its copy loop starts in: the handle with
    [writing] set, the repository with the entry of the path present. *)
Lemma Write_cases p n m :
  ∃ n1 m1,
    (path n1 = path n ∧ writing n1 = true ∧ readCursor n1 = readCursor n
     ∧ writeCursor n1 = writeCursor n)
    ∧ (scheme m1 = scheme m ∧ is_Some (Data m1 !! path n)
       ∧ ∀ k, k ≠ path n → Data m1 !! k = Data m !! k)
    ∧ match Write p (n, m) with
      | Done r (n', m') =>
          ∃ l, Write_copied n1 m1 p l
               ∧ writeCursor (wl_n l) = writeCursor n1 + length p
               ∧ r = (wl_count l, None) ∧ n' = wl_n l ∧ m' = wl_m l
      | Panicked _ (n', m') =>
          ∃ l, Write_frame n1 m1 l ∧ n' = wl_n l ∧ m' = wl_m l
      | OutOfFuel => False
      end.
Proof.
  pose proof (Write_stops p (n, m)) as Hstops. unfold Write in *.
  set (m0 := match Data m !! path n with
             | Some _ => m
             | None => Data_put m (path n) []
             end) in *.
  assert (scheme m0 = scheme m ∧ is_Some (Data m0 !! path n)
          ∧ ∀ k, k ≠ path n → Data m0 !! k = Data m !! k) as (Hs0 & Hp0 & Ho0).
  { unfold m0. destruct (Data m !! path n) as [d|] eqn:Hd.
    - rewrite Hd. eauto.
    - simpl. rewrite lookup_insert_eq. repeat split; [eauto|].
      intros k Hk. by rewrite lookup_insert_ne. }
  destruct (writing n) eqn:Hw; cbv beta iota zeta in *.
  - exists n, m0. repeat split; try done.
    pose proof (Write_loop_keeps n m0 p (S (length p)) Hp0) as Hkeeps.
    destruct (for_loop _ _ _ _ _) as [[] l|e l|]; [| |done].
    + exists l. by destruct Hkeeps.
    + by exists l.
  - exists (set_writing n true), (Data_put m0 (path n) []).
    assert (is_Some (Data (Data_put m0 (path n) []) !! path (set_writing n true))) as Hp1.
    { simpl. rewrite lookup_insert_eq. eauto. }
    split; [done|]. split.
    { simpl. repeat split; [done | by rewrite lookup_insert_eq |].
      intros k Hk. rewrite lookup_insert_ne by done. by apply Ho0. }
    pose proof (Write_loop_keeps (set_writing n true) (Data_put m0 (path n) []) p
                  (S (length p)) Hp1) as Hkeeps.
    change (writeCursor (set_writing n true)) with (writeCursor n) in *.
    destruct (for_loop _ _ _ _ _) as [[] l|e l|]; [| |done].
    + exists l. by destruct Hkeeps.
    + by exists l.
Qed.

(** X1. Whenever [Write] returns, it returns [len(p)] and no error, the
    cursor has advanced by [len(p)], and the blob holds the bytes of [p]
    from the old cursor on; when [p] is not empty the blob reaches the new
    cursor at least. *)
Theorem Write_returns_copied (p : list byte) (n : nodeReaderWriter)
    (m : InMemoryRepository) r n' m' :
  Write p (n, m) = Done r (n', m') →
  r = (length p, None)
  ∧ writeCursor n' = writeCursor n + length p
  ∧ take (length p) (drop (writeCursor n) (Data_at m' (path n))) = p
  ∧ (p ≠ [] → writeCursor n' ≤ length (Data_at m' (path n))).
Proof.
  intros HW. destruct (Write_cases p n m) as (n1 & m1 & Hn1 & _ & Hcases).
  rewrite HW in Hcases.
  destruct Hcases as (l & ((_ & _ & Hcount & Hcopied) & Hwc & -> & -> & ->)).
  destruct Hn1 as (Hpath & _ & _ & Hc). rewrite Hpath, Hc in *.
  rewrite Hwc in *.
  replace (writeCursor n + length p - writeCursor n) with (length p) in * by lia.
  assert (take (length p) (drop (writeCursor n) (Data_at (wl_m l) (path n))) = p)
    as Htake.
  { apply list_eq. intros j. destruct (decide (j < length p)) as [Hj|Hj].
    - rewrite lookup_take_lt, lookup_drop by done. by apply Hcopied.
    - rewrite lookup_take_ge by lia. symmetry. apply lookup_ge_None_2. lia. }
  repeat split; try done.
  - by rewrite Hcount.
  - intros Hp. apply (f_equal length) in Htake.
    rewrite length_take, length_drop in Htake.
    assert (0 < length p) by (destruct p; [done | simpl; lia]). lia.
Qed.

(** In every outcome of [Write] the rest of the state is as before. *)
Lemma Write_keeps_the_rest (p : list byte) (n : nodeReaderWriter)
    (m : InMemoryRepository) :
  match Write p (n, m) with
  | Done _ (n', m') | Panicked _ (n', m') =>
      path n' = path n ∧ writing n' = true ∧ readCursor n' = readCursor n
      ∧ scheme m' = scheme m
      ∧ is_Some (Data m' !! path n)
      ∧ ∀ k, k ≠ path n → Data m' !! k = Data m !! k
  | OutOfFuel => False
  end.
Proof.
  destruct (Write_cases p n m)
    as (n1 & m1 & (Hpath & Hw & Hr & _) & (Hs & _ & Ho) & Hcases).
  destruct (Write p (n, m)) as [r [n' m']|e [n' m']|]; [| |done].
  - destruct Hcases as (l & ((Hf & _) & _ & _ & -> & ->)).
    destruct Hf as (Hp' & Hw' & Hr' & Hs' & Hsome' & Ho').
    rewrite Hpath in *. repeat split; try congruence.
    intros k Hk. rewrite Ho' by done. by apply Ho.
  - destruct Hcases as (l & Hf & -> & ->).
    destruct Hf as (Hp' & Hw' & Hr' & Hs' & Hsome' & Ho').
    rewrite Hpath in *. repeat split; try congruence.
    intros k Hk. rewrite Ho' by done. by apply Ho.
Qed.

(** X2. [Write] always returns or panics, and either way it has changed
    nothing but the entry of its path, which now exists: the entries of
    the other paths, the scheme, the path and the read cursor of the
    handle are as before, and [writing] is set. *)
Theorem Write_touches_only_its_entry (p : list byte) (n : nodeReaderWriter)
    (m : InMemoryRepository) :
  match Write p (n, m) with
  | Done _ (n', m') | Panicked _ (n', m') =>
      path n' = path n ∧ writing n' = true ∧ readCursor n' = readCursor n
      ∧ scheme m' = scheme m
      ∧ is_Some (Data m' !! path n)
      ∧ ∀ k, k ≠ path n → Data m' !! k = Data m !! k
  | OutOfFuel => False
  end.
Proof. apply Write_keeps_the_rest. Qed.

(** ** [Write] at and before the end of the blob *)

(** While the map holds fewer keys than the offset asked for, every turn
    of the loop appends a zero byte and then overwrites the byte at the
    cursor, also when the cursor is before the end of the blob. *)
Lemma Write_loop_overwrites start p fuel l d :
  Data (wl_m l) !! path (wl_n l) = Some d →
  writeCursor (wl_n l) ≤ length d →
  start ≤ writeCursor (wl_n l) ≤ start + length p →
  (writeCursor (wl_n l) < start + length p →
   size (Data (wl_m l)) < writeCursor (wl_n l) + length p) →
  start + length p - writeCursor (wl_n l) < fuel →
  for_loop fuel (Write_cond start p) (Write_body start p) Write_post l =
    Done tt {| wl_n := set_writeCursor (wl_n l) (start + length p);
               wl_m := Data_put (wl_m l) (path (wl_n l))
                         (take (writeCursor (wl_n l)) d
                          ++ drop (writeCursor (wl_n l) - start) p
                          ++ drop (start + length p)
                               (d ++ replicate (start + length p - writeCursor (wl_n l)) x00));
               wl_count := wl_count l + (start + length p - writeCursor (wl_n l)) |}.
Proof.
  revert l d. induction fuel as [|fuel IH];
    intros [n m count] d Hd Hlen Hwc Hsize Hfuel; [lia|].
  simpl in *. unfold Write_cond. simpl.
  destruct (decide (writeCursor n < start + length p)) as [Hlt|Hge].
  - rewrite bool_decide_eq_true_2 by done.
    unfold Write_body. simpl.
    rewrite bool_decide_eq_true_2 by auto.
    destruct (lookup_lt_is_Some_2 p (writeCursor n - start)) as [b Hb]; [lia|].
    unfold slice_get. rewrite Hb, Data_at_put.
    unfold Data_at at 1. rewrite Hd. simpl.
    rewrite slice_set_lt by (rewrite length_app; simpl; lia).
    rewrite Data_put_put. unfold Write_post. simpl.
    set (d1 := <[writeCursor n := b]> (d ++ [x00])).
    assert (length d1 = S (length d)) as Hlen1.
    { unfold d1. rewrite length_insert, length_app. simpl. lia. }
    assert (d1 !! writeCursor n = Some b) as Hd1.
    { unfold d1. apply list_lookup_insert_eq. rewrite length_app. simpl. lia. }
    rewrite (IH _ d1); simpl.
    + f_equal. f_equal; try lia; try (by destruct n).
      rewrite Data_put_put. f_equal.
      rewrite (take_S_r d1 (writeCursor n) b Hd1).
      unfold d1 at 1. rewrite take_insert_ge, take_app_le by lia.
      replace (S (writeCursor n) - start) with (S (writeCursor n - start)) by lia.
      rewrite (drop_S p b (writeCursor n - start) Hb).
      rewrite <- app_assoc. simpl. do 3 f_equal.
      replace (start + length p - writeCursor n)
        with (S (start + length p - S (writeCursor n))) by lia.
      rewrite replicate_S. unfold d1.
      rewrite <- (insert_app_l (d ++ [x00])) by (rewrite length_app; simpl; lia).
      rewrite drop_insert_lt by lia. by rewrite <- app_assoc.
    + by rewrite lookup_insert_eq.
    + lia.
    + lia.
    + intros _. rewrite map_size_insert_Some by eauto.
      specialize (Hsize Hlt). lia.
    + lia.
  - rewrite bool_decide_eq_false_2 by done.
    assert (writeCursor n = start + length p) as Heq by lia.
    rewrite <- Heq, Nat.sub_diag, set_writeCursor_id. simpl.
    rewrite app_nil_r, Nat.add_0_r.
    rewrite (drop_ge p) by lia. simpl.
    rewrite take_drop, Data_put_id by done. done.
Qed.

(** X3. The first [Write] of a session, on a handle that has not written
    and whose cursor is at 0: when it writes nothing, or more bytes than
    the map has keys (the key of its path counted in), it returns
    [len(p)] and the entry holds exactly [p], whatever it held; otherwise
    it panics with an index out of range and leaves the entry empty. *)
Theorem Write_first_call (p : list byte) (n : nodeReaderWriter)
    (m : InMemoryRepository) :
  writing n = false →
  writeCursor n = 0 →
  (p = [] ∨ size (<[path n := []]> (Data m)) < length p →
   Write p (n, m) =
     Done (length p, None)
          (set_writeCursor (set_writing n true) (length p), Data_put m (path n) p))
  ∧ (p ≠ [] → length p ≤ size (<[path n := []]> (Data m)) →
     Write p (n, m) =
       Panicked IndexOutOfRange (set_writing n true, Data_put m (path n) [])).
Proof.
  intros Hw Hc. split.
  - intros Hp. by apply Write_first_ok.
  - intros Hp Hsize. by apply Write_first_panics.
Qed.

(** X4. A later [Write] of a session whose cursor is not past the end of
    the blob, when it writes nothing or the map has fewer keys than
    [writeCursor + len(p)]: it returns [len(p)], overwrites the blob from
    the cursor on, and has appended [len(p)] zero bytes on the way, so
    that the blob is [len(p)] bytes longer than before even where the
    bytes written replace bytes that were there.  With the cursor at the
    end of the blob the result is the blob followed by [p]. *)
Theorem Write_later_call (p : list byte) (n : nodeReaderWriter)
    (m : InMemoryRepository) (d : list byte) :
  writing n = true →
  Data m !! path n = Some d →
  writeCursor n ≤ length d →
  (p = [] ∨ size (Data m) < writeCursor n + length p) →
  let blob := take (writeCursor n) d ++ p
              ++ drop (writeCursor n + length p) (d ++ replicate (length p) x00) in
  Write p (n, m) =
    Done (length p, None)
         (set_writeCursor n (writeCursor n + length p), Data_put m (path n) blob)
  ∧ length blob = length d + length p
  ∧ (writeCursor n = length d → blob = d ++ p).
Proof.
  intros Hw Hd Hlen Hp blob. split; [|split].
  - unfold Write. rewrite Hw, Hd. cbv beta iota zeta.
    rewrite (Write_loop_overwrites _ _ _ _ d); simpl; try done; try lia.
    + by rewrite Nat.sub_diag, drop_0, Nat.add_sub'.
    + intros Hlt. destruct Hp as [->|Hp]; [simpl in Hlt; lia | done].
  - unfold blob. rewrite !length_app, length_take, length_drop, length_app,
      length_replicate. lia.
  - intros Heq. unfold blob. rewrite Heq, take_ge by lia.
    rewrite drop_app_ge by lia. rewrite drop_ge; [by rewrite app_nil_r|].
    rewrite length_replicate. lia.
Qed.

(** X5. A [Write] of at least one byte through a handle that has written
    before and whose cursor is past the end of the blob panics with an
    index out of range: this is the handle whose entry was deleted, or
    replaced by a shorter blob, since its last [Write]. *)
Theorem Write_past_the_end_panics (p : list byte) (n : nodeReaderWriter)
    (m : InMemoryRepository) :
  writing n = true →
  p ≠ [] →
  length (Data_at m (path n)) < writeCursor n →
  ∃ m', Write p (n, m) = Panicked IndexOutOfRange (n, m').
Proof.
  intros Hw Hp Hlen. unfold Write. rewrite Hw.
  set (m0 := match Data m !! path n with
             | Some _ => m
             | None => Data_put m (path n) []
             end).
  assert (Data_at m0 (path n) = Data_at m (path n)) as Hat.
  { unfold m0, Data_at. destruct (Data m !! path n) as [d|] eqn:Hd.
    - by rewrite Hd.
    - simpl. by rewrite lookup_insert_eq. }
  cbv beta iota zeta. cbn [for_loop].
  unfold Write_cond. cbn [wl_n].
  rewrite bool_decide_eq_true_2 by (destruct p; [done | simpl; lia]).
  unfold Write_body. cbn [wl_n wl_m wl_count].
  rewrite Nat.sub_diag. unfold slice_get.
  destruct p as [|b p]; [done|]. cbn [lookup list_lookup].
  destruct (bool_decide (size (Data m0) < writeCursor n + length (b :: p))).
  - rewrite Data_at_put, slice_set_ge; [by eexists|].
    rewrite length_app, Hat. simpl. lia.
  - rewrite slice_set_ge; [by eexists|]. rewrite Hat. lia.
Qed.

(** X6. A [Write] of no byte never panics and returns 0 without error.
    Through a handle that has not written yet it still creates the entry
    or empties it and sets [writing]; through a handle that has written
    it only makes sure the entry exists. *)
Theorem Write_nothing (n : nodeReaderWriter) (m : InMemoryRepository) :
  Write [] (n, m) =
    Done (0, None)
         (set_writing n true,
          if writing n
          then match Data m !! path n with
               | Some _ => m
               | None => Data_put m (path n) []
               end
          else Data_put m (path n) []).
Proof.
  unfold Write. destruct (writing n) eqn:Hw; cbv beta iota zeta; cbn [for_loop].
  - unfold Write_cond. cbn [wl_n length].
    rewrite bool_decide_eq_false_2 by lia. cbn [wl_n wl_m wl_count].
    do 2 f_equal. destruct n. simpl in *. by subst.
  - unfold Write_cond. cbn [wl_n length].
    change (writeCursor (set_writing n true)) with (writeCursor n).
    rewrite bool_decide_eq_false_2 by lia. cbn [wl_n wl_m wl_count].
    by rewrite Write_truncates.
Qed.

(** ** Reading in pieces *)

(** X7. Two calls of [Read] in a row, with buffers [p1] and [p2], deliver
    together the bytes one call with a buffer of [len(p1) + len(p2)]
    bytes delivers: the second call goes on where the first stopped. *)
Theorem Read_twice (p1 p2 : list byte) (n : nodeReaderWriter)
    (m : InMemoryRepository) (data : list byte) :
  Data m !! path n = Some data →
  ∃ q1 c1 e1 n1 q2 c2 e2 n2,
    Read p1 (n, m) = Done (q1, c1, e1) (n1, m)
    ∧ Read p2 (n1, m) = Done (q2, c2, e2) (n2, m)
    ∧ c1 + c2 = (length p1 + length p2) `min` (length data - readCursor n)
    ∧ take c1 q1 ++ take c2 q2 = take (c1 + c2) (drop (readCursor n) data)
    ∧ readCursor n2 = readCursor n + (c1 + c2).
Proof.
  intros Hdata.
  set (c1 := length p1 `min` (length data - readCursor n)).
  set (n1 := set_readCursor n (readCursor n + c1)).
  set (c2 := length p2 `min` (length data - readCursor n1)).
  do 8 eexists. split; [by apply Read_present|].
  split; [by apply (Read_present p2 n1 m data)|].
  fold c1 n1 c2. change (readCursor n1) with (readCursor n + c1) in *.
  split; [lia|]. split; [|simpl; lia].
  rewrite !take_app_length' by (rewrite length_take, length_drop; lia).
  rewrite <- (drop_drop data c1), <- take_take_drop. done.
Qed.

(** X8. Reading a handle until [io.EOF] with buffers of any one size of
    at least a byte delivers what the blob holds from the cursor on, ends
    without error, leaves the cursor at the end of the blob (or where it
    was, past the end) and the repository as it was, in no more calls
    than the blob has bytes left, plus one. *)
Theorem read_until_EOF_delivers_rest (fuel bufsize : nat) (acc : list byte)
    (n : nodeReaderWriter) (m : InMemoryRepository) (d : list byte) :
  Data m !! path n = Some d →
  0 < bufsize →
  length d - readCursor n < fuel →
  read_until_EOF fuel bufsize acc (n, m) =
    Done (acc ++ drop (readCursor n) d, None)
         (set_readCursor n (readCursor n `max` length d), m).
Proof. apply read_until_EOF_all. Qed.

(** X9. [Close] rewinds: after it the next [Read] copies from the start
    of the blob, whatever the cursor was, and the next [Write] is the
    first [Write] of a session again, which replaces what the entry
    holds. *)
Theorem Close_rewinds (p : list byte) (n : nodeReaderWriter)
    (m : InMemoryRepository) (data : list byte) :
  Data m !! path n = Some data →
  ∃ n',
    Close (n, m) = Done None (n', m)
    ∧ (let c := length p `min` length data in
       Read p (n', m) =
         Done (take c data ++ drop c p, c,
               if bool_decide (length data ≤ c) then Some EOF else None)
              (set_readCursor n' c, m))
    ∧ (p = [] ∨ size (Data m) < length p →
       Write p (n', m) =
         Done (length p, None)
              (set_writeCursor (set_writing n' true) (length p),
               Data_put m (path n) p)).
Proof.
  intros Hdata. exists (fresh (path n)). split; [done|]. split.
  - intros c. rewrite (Read_present p (fresh (path n)) m data Hdata).
    simpl. by rewrite Nat.sub_0_r.
  - intros Hp. apply (Write_first_ok p (fresh (path n)) m); try done.
    destruct Hp as [->|Hp]; [by left | right].
    simpl. by rewrite map_size_insert_Some.
Qed.

(** ** Prefixes, separators and names *)

Lemma append_EmptyString_r s : s +:+ EmptyString = s.
Proof.
  induction s as [|a s IH]; [done|].
  change (String a (s +:+ EmptyString) = String a s). by rewrite IH.
Qed.

Lemma strip_prefix_app prefix rest : strip_prefix prefix (prefix +:+ rest) = Some rest.
Proof.
  induction prefix as [|a prefix IH]; [done|].
  simpl. by rewrite Ascii.eqb_refl.
Qed.

Lemma strip_prefix_Some prefix k rest :
  strip_prefix prefix k = Some rest → k = prefix +:+ rest.
Proof.
  revert k. induction prefix as [|a prefix IH]; intros k Hk.
  - simpl in Hk. by injection Hk as ->.
  - destruct k as [|b k]; [done|]. simpl in Hk.
    destruct (Ascii.eqb_spec a b) as [->|]; [|done].
    change (String b k = String b (prefix +:+ rest)). f_equal. by apply IH.
Qed.

Lemma HasPrefix_strip_prefix k prefix :
  strings_HasPrefix k prefix = bool_decide (is_Some (strip_prefix prefix k)).
Proof.
  unfold strings_HasPrefix. revert k.
  induction prefix as [|a prefix IH]; intros k.
  - by destruct k.
  - destruct k as [|b k]; simpl; [done|].
    destruct (ascii_dec a b) as [->|Hne].
    + rewrite Ascii.eqb_refl. apply IH.
    + apply Ascii.eqb_neq in Hne. by rewrite Hne.
Qed.

Lemma length_strings_Split s : length (strings_Split s slash) = S (count_slash s).
Proof.
  induction s as [|c s IH]; [done|]. simpl.
  destruct (Ascii.eqb c slash); simpl; [by rewrite IH|].
  destruct (strings_Split s slash); simpl in *; lia.
Qed.

Lemma count_slash_app s1 s2 :
  count_slash (s1 +:+ s2) = count_slash s1 + count_slash s2.
Proof. induction s1 as [|c s1 IH]; [done|]. simpl. rewrite IH. lia. Qed.

Lemma last_byte_app s1 s2 :
  s2 ≠ EmptyString → last_byte (s1 +:+ s2) = last_byte s2.
Proof.
  intros Hs2. induction s1 as [|c s1 IH]; [done|].
  simpl. destruct (s1 +:+ s2) eqn:Happ; [|done].
  destruct s1; [simpl in Happ; by subst | done].
Qed.

Lemma ends_with_slash_count s : ends_with_slash s = true → 0 < count_slash s.
Proof.
  unfold ends_with_slash. induction s as [|c s IH]; [done|].
  simpl. destruct s as [|c' s].
  - intros ->. simpl. lia.
  - intros Hs. specialize (IH Hs). lia.
Qed.

Lemma listing_prefix_ends_with_slash pth :
  ends_with_slash (listing_prefix pth) = true.
Proof.
  unfold listing_prefix. destruct (ends_with_slash pth) eqn:Hs; [done|].
  unfold ends_with_slash. by rewrite last_byte_app.
Qed.

(** The test of the listing, on a prefix that ends with a separator, is
    on the shape of the key. *)
Lemma qualifies_is_child prefix k :
  ends_with_slash prefix = true → qualifies prefix k = is_child prefix k.
Proof.
  intros Hprefix. unfold qualifies, is_child.
  rewrite HasPrefix_strip_prefix.
  destruct (strip_prefix prefix k) as [rest|] eqn:Hstrip.
  - rewrite bool_decide_eq_true_2 by eauto. simpl.
    apply strip_prefix_Some in Hstrip as ->.
    unfold component_count. rewrite !length_strings_Split, count_slash_app.
    destruct rest as [|c rest].
    + rewrite append_EmptyString_r, Hprefix. simpl. apply Nat.eqb_neq. lia.
    + unfold child_name.
      assert (ends_with_slash (prefix +:+ String c rest)
              = ends_with_slash (String c rest)) as ->.
      { unfold ends_with_slash. by rewrite last_byte_app. }
      pose proof (ends_with_slash_count (String c rest)) as Hcount.
      generalize dependent (count_slash (String c rest)). intros cr Hcount.
      generalize (count_slash prefix). intros cp.
      destruct (ends_with_slash (String c rest)).
      * specialize (Hcount eq_refl).
        destruct (Nat.eqb_spec cr 0); [lia|].
        destruct (Nat.eqb_spec cr 1); cbn [orb andb].
        -- apply Nat.eqb_eq. lia.
        -- apply Nat.eqb_neq. lia.
      * rewrite andb_false_r, orb_false_r.
        destruct (Nat.eqb_spec cr 0).
        -- apply Nat.eqb_eq. lia.
        -- apply Nat.eqb_neq. lia.
  - rewrite bool_decide_eq_false_2; [done|]. by intros [? ?].
Qed.

Lemma strip_prefix_longer prefix k :
  String.length k < String.length prefix → strip_prefix prefix k = None.
Proof.
  revert k. induction prefix as [|a prefix IH]; intros k Hk; [simpl in Hk; lia|].
  destruct k as [|b k]; [done|]. simpl in *.
  destruct (Ascii.eqb a b); [|done]. apply IH. lia.
Qed.

Lemma length_append s1 s2 :
  String.length (s1 +:+ s2) = String.length s1 + String.length s2.
Proof. induction s1 as [|c s1 IH]; [done|]. simpl. by rewrite IH. Qed.

(** Neither the prefix nor the path listed is a child of the prefix. *)
Lemma is_child_prefix_itself prefix : is_child prefix prefix = false.
Proof.
  unfold is_child.
  rewrite <- (append_EmptyString_r prefix) at 2.
  by rewrite strip_prefix_app.
Qed.

Lemma is_child_path_itself pth : is_child (listing_prefix pth) pth = false.
Proof.
  unfold listing_prefix. destruct (ends_with_slash pth).
  - apply is_child_prefix_itself.
  - unfold is_child. rewrite strip_prefix_longer; [done|].
    rewrite length_append. simpl. lia.
Qed.

(** ** More on the blob store *)

Section MoreRepositoryProperties.
Context {URI : Type}.
Variable Path : URI → string.
Variable ParseURI : string → URI + error.

(** [List] on a non-empty path is its loop run on the prefix. *)
Lemma List_unfold keys u m :
  Path u ≠ "" →
  List Path ParseURI keys u m =
    List_range ParseURI m (listing_prefix (Path u))
      (strings_Split (listing_prefix (Path u)) slash) keys [].
Proof.
  intros Hu. destruct (last_byte_is_Some (Path u) Hu) as [c Hc].
  unfold List, listing_prefix, ends_with_slash. by rewrite Hc.
Qed.

(** The loop of [List] over keys none of which is empty and whose
    children all have a URI: the URIs of the children are appended to the
    listing and the loop goes on with the keys that follow. *)
Lemma List_range_app m prefix (f : string → URI) keys1 keys2 acc :
  ends_with_slash prefix = true →
  Forall (λ k, k ≠ "") keys1 →
  (∀ k, k ∈ keys1 → is_child prefix k →
        ParseURI (scheme m +:+ "://" +:+ k) = inl (f k)) →
  List_range ParseURI m prefix (strings_Split prefix slash) (keys1 ++ keys2) acc =
    List_range ParseURI m prefix (strings_Split prefix slash) keys2
      (acc ++ (f <$> filter (λ k, Is_true (is_child prefix k)) keys1)).
Proof.
  intros Hprefix. revert acc.
  induction keys1 as [|k keys1 IH]; intros acc Hne Hparse.
  - simpl. by rewrite app_nil_r.
  - apply Forall_cons in Hne as [Hk Hne].
    destruct (last_byte_is_Some k Hk) as [c Hc].
    cbn [app List_range]. rewrite Hc. cbv zeta.
    rewrite (List_test_qualifies prefix k c Hc), (qualifies_is_child prefix k Hprefix).
    destruct (is_child prefix k) eqn:Hq.
    + rewrite (Hparse k) by (by left || by rewrite Hq).
      rewrite filter_cons_True by (by rewrite Hq).
      rewrite IH; [| done | intros k' Hk'; apply Hparse; by right].
      by rewrite fmap_cons, <- app_assoc.
    + rewrite filter_cons_False by (rewrite Hq; simpl; tauto).
      apply IH; [done | intros k' Hk'; apply Hparse; by right].
Qed.

(** X15. On a repository without an entry under the empty key and a
    non-empty path, when a URI can be built for each child, [List]
    returns without error the URIs of the children, in the order in which
    the map hands out its keys, and leaves the repository as it is.  A
    child is a key made of the prefix followed by a name: a non-empty
    rest without separator, except possibly one at its very end.  The
    path listed and the prefix are no children. *)
Theorem List_children_by_shape (f : string → URI) (keys : list string) (u : URI)
    (m : InMemoryRepository) :
  Path u ≠ "" →
  Data m !! "" = None →
  range_order m keys →
  (∀ k, k ∈ keys → is_child (listing_prefix (Path u)) k →
        ParseURI (scheme m +:+ "://" +:+ k) = inl (f k)) →
  List Path ParseURI keys u m =
    Done (f <$> filter (λ k, Is_true (is_child (listing_prefix (Path u)) k)) keys, None) m
  ∧ is_child (listing_prefix (Path u)) (Path u) = false
  ∧ is_child (listing_prefix (Path u)) (listing_prefix (Path u)) = false.
Proof.
  intros Hu Hempty Horder Hparse. split.
  - rewrite List_unfold by done.
    rewrite <- (app_nil_r keys) at 1.
    rewrite (List_range_app m _ f keys [] []); [done | | | done].
    + apply listing_prefix_ends_with_slash.
    + apply Forall_forall. intros k Hk ->.
      apply (range_order_elem_of m keys "" Horder) in Hk.
      rewrite Hempty in Hk. by destruct Hk.
  - split; [apply is_child_path_itself | apply is_child_prefix_itself].
Qed.

(** X16. When the URI of a child cannot be built, [List] returns the
    error of [storage.ParseURI] for the first such child the map hands
    out, and no listing: the URIs built before are dropped. *)
Theorem List_returns_first_error (f : string → URI) (keys1 keys2 : list string)
    (k : string) (err : error) (u : URI) (m : InMemoryRepository) :
  Path u ≠ "" →
  Forall (λ k, k ≠ "") (keys1 ++ [k]) →
  (∀ k', k' ∈ keys1 → is_child (listing_prefix (Path u)) k' →
         ParseURI (scheme m +:+ "://" +:+ k') = inl (f k')) →
  is_child (listing_prefix (Path u)) k = true →
  ParseURI (scheme m +:+ "://" +:+ k) = inr err →
  List Path ParseURI (keys1 ++ k :: keys2) u m = Done ([], Some err) m.
Proof.
  intros Hu Hne Hparse Hchild Herr.
  apply Forall_app in Hne as [Hne1 [Hk _]%Forall_cons].
  rewrite List_unfold by done.
  rewrite (List_range_app m _ f keys1 (k :: keys2) []);
    [| apply listing_prefix_ends_with_slash | done | done].
  destruct (last_byte_is_Some k Hk) as [c Hc].
  cbn [List_range]. rewrite Hc. cbv zeta.
  rewrite (List_test_qualifies _ k c Hc).
  rewrite qualifies_is_child by apply listing_prefix_ends_with_slash.
  by rewrite Hchild, Herr.
Qed.


(** X14. A separator at the end of the path listed makes no difference:
    listing a non-empty path that does not end with a separator and
    listing that path followed by a separator are the same call. *)
Theorem List_trailing_separator (keys : list string) (u u' : URI)
    (m : InMemoryRepository) :
  Path u ≠ "" →
  ends_with_slash (Path u) = false →
  Path u' = Path u +:+ "/" →
  List Path ParseURI keys u' m = List Path ParseURI keys u m.
Proof.
  intros Hu Hslash Hu'.
  assert (Path u' ≠ "") as Hne.
  { rewrite Hu'. intros Heq. apply (f_equal String.length) in Heq.
    rewrite length_append in Heq. simpl in Heq. lia. }
  rewrite !List_unfold by done.
  assert (listing_prefix (Path u') = listing_prefix (Path u)) as ->; [|done].
  unfold listing_prefix. rewrite Hslash, Hu'.
  assert (ends_with_slash (Path u +:+ "/") = true) as ->; [|done].
  unfold ends_with_slash. by rewrite last_byte_app.
Qed.

End MoreRepositoryProperties.

Section SessionProperties.
Context {URI : Type}.
Variable Path : URI → string.
Variable ParseURI : string → URI + error.

(** A listing returned without error holds a URI for each child, in the
    order of the keys. *)
Lemma List_range_listing m prefix keys acc listing :
  ends_with_slash prefix = true →
  Forall (λ k, k ≠ "") keys →
  List_range ParseURI m prefix (strings_Split prefix slash) keys acc
    = Done (listing, None) m →
  ∃ l, listing = acc ++ l
       ∧ Forall2 (λ k uri, ParseURI (scheme m +:+ "://" +:+ k) = inl uri)
           (filter (λ k, Is_true (is_child prefix k)) keys) l.
Proof.
  intros Hprefix. revert acc.
  induction keys as [|k keys IH]; intros acc Hne Hlist.
  - simpl in Hlist. injection Hlist as <-. exists []. by rewrite app_nil_r.
  - apply Forall_cons in Hne as [Hk Hne].
    destruct (last_byte_is_Some k Hk) as [c Hc].
    cbn [List_range] in Hlist. rewrite Hc in Hlist. cbv zeta in Hlist.
    rewrite (List_test_qualifies prefix k c Hc),
      (qualifies_is_child prefix k Hprefix) in Hlist.
    destruct (is_child prefix k) eqn:Hq.
    + destruct (ParseURI (scheme m +:+ "://" +:+ k)) as [uri|err] eqn:Huri; [|done].
      destruct (IH _ Hne Hlist) as (l & -> & HF).
      exists (uri :: l). rewrite <- app_assoc. split; [done|].
      rewrite filter_cons_True by (by rewrite Hq). by constructor.
    + destruct (IH _ Hne Hlist) as (l & -> & HF).
      exists l. split; [done|].
      by rewrite filter_cons_False by (rewrite Hq; simpl; tauto).
Qed.

(** X18. The URIs of a listing are the URIs of the handles: when [List]
    returns a listing without error, it holds one URI for each child, in
    the order of the keys, and that URI is the one the method [URI] of
    any handle on the key reports. *)
Theorem listed_URI_is_handle_URI (keys : list string) (u : URI)
    (m : InMemoryRepository) (listing : list URI) :
  Path u ≠ "" →
  Data m !! "" = None →
  range_order m keys →
  List Path ParseURI keys u m = Done (listing, None) m →
  Forall2 (λ k uri, ∀ n, path n = k →
             nodeReaderWriter_URI ParseURI (n, m) = Done (Some uri) (n, m))
    (filter (λ k, Is_true (is_child (listing_prefix (Path u)) k)) keys) listing.
Proof.
  intros Hu Hempty Horder Hlist. rewrite List_unfold in Hlist by done.
  apply List_range_listing in Hlist as (l & -> & HF).
  - simpl. eapply Forall2_impl; [exact HF|].
    intros k uri Huri n <-. unfold nodeReaderWriter_URI. by rewrite Huri.
  - apply listing_prefix_ends_with_slash.
  - apply Forall_forall. intros k Hk ->.
    apply (range_order_elem_of m keys "" Horder) in Hk.
    rewrite Hempty in Hk. by destruct Hk.
Qed.

(** X10. Writing [b] to a non-empty path with a fresh writer, closing it
    and reading the path back until [io.EOF], with buffers of any size of
    at least a byte: when [b] is empty or longer than the map has keys
    (the key of the path counted in), what is read back is [b] and the
    entry holds [b]; otherwise the [Write] panics and the entry is left
    empty. *)
Theorem round_trip_closed_form (fuel bufsize : nat) (u : URI) (b : list byte)
    (m : InMemoryRepository) :
  Path u ≠ "" →
  0 < bufsize →
  length b < fuel →
  round_trip Path fuel bufsize u b m =
    if decide (b = [] ∨ size (<[Path u := []]> (Data m)) < length b)
    then Done (b, None) (Data_put m (Path u) b)
    else Panicked IndexOutOfRange (Data_put m (Path u) []).
Proof.
  intros Hu Hbuf Hfuel. case_decide as Hb.
  - by apply round_trip_ok.
  - unfold round_trip, write_file, Writer. rewrite decide_False by done.
    change {| path := Path u; writing := false; readCursor := 0; writeCursor := 0 |}
      with (fresh (Path u)).
    rewrite Write_first_panics; try done.
    + intros ->. apply Hb. by left.
    + simpl. destruct (decide (length b ≤ size (<[Path u := []]> (Data m))));
        [done|]. exfalso. apply Hb. right. lia.
Qed.

(** X11. [Reader] on a non-empty path fails with the no-such-path error
    when the path has no entry.  When it has one, the handle returned
    reads the whole blob and [io.EOF] in one call into any buffer that is
    at least as long as the blob. *)
Theorem Reader_then_Read (u : URI) (m : InMemoryRepository) :
  Path u ≠ "" →
  (Data m !! Path u = None →
   Reader Path u m = Done (None, Some (ErrNoSuchPath (Path u))) m
   ∧ is_NotFound (Some (ErrNoSuchPath (Path u))) = true)
  ∧ (∀ data p, Data m !! Path u = Some data → length data ≤ length p →
       ∃ r, Reader Path u m = Done (Some r, None) m
            ∧ Read p (r, m) =
                Done (data ++ drop (length data) p, length data, Some EOF)
                     (set_readCursor r (length data), m)).
Proof.
  intros Hu. unfold Reader. rewrite decide_False by done. split.
  - intros Hd. by rewrite Hd.
  - intros data p Hd Hlen. rewrite Hd. eexists. split; [done|].
    rewrite (Read_present p _ m data) by done. simpl.
    rewrite Nat.sub_0_r, Nat.min_r by lia.
    rewrite bool_decide_eq_true_2 by lia. by rewrite take_ge.
Qed.

(** X12. [Writer] on a non-empty path returns a handle and creates
    nothing: the repository is the one it was called on.  The first
    [Write] through the handle creates the entry, whatever it writes and
    whether it returns or panics: [Exists] and [CanRead] are true
    afterwards. *)
Theorem Writer_creates_on_Write (u : URI) (p : list byte) (m : InMemoryRepository) :
  Path u ≠ "" →
  ∃ w,
    Writer Path u m = Done (Some w, None) m
    ∧ path w = Path u
    ∧ match Write p (w, m) with
      | Done _ (_, m') | Panicked _ (_, m') =>
          Exists Path u m' = Done (true, None) m'
          ∧ CanRead Path u m' = Done (true, None) m'
      | OutOfFuel => False
      end.
Proof.
  intros Hu. unfold Writer. rewrite decide_False by done.
  eexists. split; [done|]. split; [done|].
  pose proof (Write_keeps_the_rest p (fresh (Path u)) m) as Hframe.
  change {| path := Path u; writing := false; readCursor := 0; writeCursor := 0 |}
    with (fresh (Path u)).
  destruct (Write p (fresh (Path u), m)) as [r [n' m']|e [n' m']|]; [| |done].
  all: destruct Hframe as (_ & _ & _ & _ & Hsome & _); simpl in Hsome.
  all: unfold Exists, CanRead; rewrite !decide_False by done.
  all: by rewrite bool_decide_eq_true_2.
Qed.

(** X13. After [Delete] of a non-empty path the path is gone for every
    operation: [Exists] and [CanRead] are false, [Reader] fails with the
    no-such-path error, and a handle opened on the path before fails to
    [Read] with the not-present error, copying nothing.  [Exists] on any
    other path answers as before. *)
Theorem Delete_then_access (u : URI) (m : InMemoryRepository) :
  Path u ≠ "" →
  ∃ m',
    Delete Path u m = Done None m'
    ∧ Exists Path u m' = Done (false, None) m'
    ∧ CanRead Path u m' = Done (false, None) m'
    ∧ Reader Path u m' = Done (None, Some (ErrNoSuchPath (Path u))) m'
    ∧ (∀ n p, path n = Path u →
         Read p (n, m') = Done (p, 0, Some (ErrNotPresent (Path u))) (n, m'))
    ∧ (∀ u2 r, Path u2 ≠ Path u →
         Exists Path u2 m = Done r m → Exists Path u2 m' = Done r m').
Proof.
  intros Hu.
  assert (∃ m', Delete Path u m = Done None m'
                ∧ Data m' !! Path u = None
                ∧ ∀ k, k ≠ Path u → Data m' !! k = Data m !! k) as (m' & HD & Hgone & Hother).
  { unfold Delete. destruct (Data m !! Path u) as [d|] eqn:Hd.
    - eexists. split; [done|]. simpl. rewrite lookup_delete_eq. split; [done|].
      intros k Hk. by rewrite lookup_delete_ne.
    - by exists m. }
  exists m'. split; [done|].
  unfold Exists, CanRead, Reader. rewrite !decide_False by done. rewrite Hgone.
  rewrite bool_decide_eq_false_2 by (by intros [? ?]).
  repeat split.
  - intros n p Hn. rewrite <- Hn. apply Read_absent. by rewrite Hn.
  - intros u2 r Hne. case_decide; [by intros [= <-]|].
    rewrite Hother by done. by intros [= <-].
Qed.

End SessionProperties.

(** ** The further properties on examples *)

Lemma Write_returns_copied_witness :
  Write [x01; x02] (fresh "/p", NewInMemoryRepository "mem")
    = Done (2, None)
        (set_writeCursor (set_writing (fresh "/p") true) 2,
         Data_put (NewInMemoryRepository "mem") "/p" [x01; x02])
  ∧ take 2 (drop 0 (Data_at (Data_put (NewInMemoryRepository "mem") "/p" [x01; x02]) "/p"))
    = [x01; x02].
Proof.
  assert (Write [x01; x02] (fresh "/p", NewInMemoryRepository "mem")
          = Done (2, None)
              (set_writeCursor (set_writing (fresh "/p") true) 2,
               Data_put (NewInMemoryRepository "mem") "/p" [x01; x02])) as HW
    by (vm_compute; reflexivity).
  split; [exact HW|].
  destruct (Write_returns_copied _ _ _ _ _ _ HW) as (_ & _ & Htake & _).
  exact Htake.
Defined.

Lemma Write_first_call_witness :
  Write [x01; x02; x03; x04] (fresh "/a/b", repo_abc)
    = Done (4, None)
        (set_writeCursor (set_writing (fresh "/a/b") true) 4,
         Data_put repo_abc "/a/b" [x01; x02; x03; x04])
  ∧ Write [x01; x02; x03] (fresh "/a/b", repo_abc)
    = Panicked IndexOutOfRange (set_writing (fresh "/a/b") true, Data_put repo_abc "/a/b" []).
Proof.
  destruct (Write_first_call [x01; x02; x03; x04] (fresh "/a/b") repo_abc eq_refl eq_refl)
    as [Hok _].
  destruct (Write_first_call [x01; x02; x03] (fresh "/a/b") repo_abc eq_refl eq_refl)
    as [_ Hpanic].
  split.
  - apply Hok. right. vm_compute. lia.
  - apply Hpanic; [discriminate | vm_compute; lia].
Defined.

(** One byte written at offset 1 of a blob of three bytes: the byte at
    offset 1 is replaced and a zero byte has been appended. *)
Lemma Write_later_call_witness :
  Write [x09] (writer_at_1, repo_p)
    = Done (1, None) (set_writeCursor writer_at_1 2,
                      Data_put repo_p "/p" [x01; x09; x03; x00]).
Proof.
  destruct (Write_later_call [x09] writer_at_1 repo_p [x01; x02; x03])
    as (HW & _); [reflexivity | vm_compute; reflexivity | simpl; lia
                  | right; vm_compute; lia |].
  exact HW.
Defined.

Lemma Write_past_the_end_panics_witness :
  ∃ m', Write [x09] (writer_at_5, repo_p) = Panicked IndexOutOfRange (writer_at_5, m').
Proof.
  apply (Write_past_the_end_panics [x09] writer_at_5 repo_p);
    [reflexivity | discriminate | vm_compute; lia].
Defined.

Lemma Read_twice_witness :
  ∃ q1 c1 e1 n1 q2 c2 e2 n2,
    Read [x00; x00] (fresh "/p", repo_p) = Done (q1, c1, e1) (n1, repo_p)
    ∧ Read [x00; x00] (n1, repo_p) = Done (q2, c2, e2) (n2, repo_p)
    ∧ c1 + c2 = (2 + 2) `min` (3 - 0)
    ∧ take c1 q1 ++ take c2 q2 = take (c1 + c2) (drop 0 [x01; x02; x03])
    ∧ readCursor n2 = 0 + (c1 + c2).
Proof.
  apply (Read_twice [x00; x00] [x00; x00] (fresh "/p") repo_p [x01; x02; x03]).
  vm_compute. reflexivity.
Defined.

Lemma read_until_EOF_delivers_rest_witness :
  read_until_EOF 4 2 [] (fresh "/p", repo_p)
    = Done ([] ++ drop 0 [x01; x02; x03], None)
        (set_readCursor (fresh "/p") (0 `max` 3), repo_p).
Proof.
  apply (read_until_EOF_delivers_rest 4 2 [] (fresh "/p") repo_p [x01; x02; x03]);
    [vm_compute; reflexivity | lia | simpl; lia].
Defined.

Lemma Close_rewinds_witness :
  ∃ n',
    Close (writer_at_5, repo_p) = Done None (n', repo_p)
    ∧ (let c := 2 `min` 3 in
       Read [x07; x08] (n', repo_p) =
         Done (take c [x01; x02; x03] ++ drop c [x07; x08], c,
               if bool_decide (3 ≤ c) then Some EOF else None)
              (set_readCursor n' c, repo_p))
    ∧ ([x07; x08] = [] ∨ size (Data repo_p) < 2 →
       Write [x07; x08] (n', repo_p) =
         Done (2, None)
              (set_writeCursor (set_writing n' true) 2,
               Data_put repo_p "/p" [x07; x08])).
Proof.
  apply (Close_rewinds [x07; x08] writer_at_5 repo_p [x01; x02; x03]).
  vm_compute. reflexivity.
Defined.

Lemma List_children_by_shape_witness :
  List uri_path parseURI ["/a/b"; "/a/b/c"; "/a/bc"] (mem_uri "/a") repo_abc
    = Done (mem_uri <$> filter (λ k, Is_true (is_child (listing_prefix "/a") k))
                          ["/a/b"; "/a/b/c"; "/a/bc"], None) repo_abc.
Proof.
  destruct (List_children_by_shape uri_path parseURI mem_uri
              ["/a/b"; "/a/b/c"; "/a/bc"] (mem_uri "/a") repo_abc) as [HL _].
  - simpl. discriminate.
  - vm_compute. reflexivity.
  - exact range_order_repo_abc.
  - intros k _ _. apply parseURI_mem.
  - exact HL.
Defined.

Lemma List_returns_first_error_witness :
  List uri_path (parseURI_but "mem:///a/bc") (["/a/b"] ++ "/a/bc" :: ["/a/b/c"])
    (mem_uri "/a") repo_abc
  = Done ([], Some (ForeignError "mem:///a/bc")) repo_abc.
Proof.
  apply (List_returns_first_error uri_path (parseURI_but "mem:///a/bc") mem_uri).
  - simpl. discriminate.
  - repeat constructor; discriminate.
  - intros k Hk _. apply list_elem_of_singleton in Hk as ->. vm_compute. reflexivity.
  - vm_compute. reflexivity.
  - vm_compute. reflexivity.
Defined.


Lemma List_trailing_separator_witness :
  List uri_path parseURI ["/a/b"; "/a/b/c"; "/a/bc"] (mem_uri "/a/") repo_abc
    = List uri_path parseURI ["/a/b"; "/a/b/c"; "/a/bc"] (mem_uri "/a") repo_abc.
Proof.
  apply (List_trailing_separator uri_path parseURI);
    [simpl; discriminate | vm_compute; reflexivity | reflexivity].
Defined.

Lemma listed_URI_is_handle_URI_witness :
  Forall2 (λ k uri, ∀ n, path n = k →
             nodeReaderWriter_URI parseURI (n, repo_abc) = Done (Some uri) (n, repo_abc))
    (filter (λ k, Is_true (is_child (listing_prefix "/a") k)) ["/a/b"; "/a/b/c"; "/a/bc"])
    [mem_uri "/a/b"; mem_uri "/a/bc"].
Proof.
  apply (listed_URI_is_handle_URI uri_path parseURI
           ["/a/b"; "/a/b/c"; "/a/bc"] (mem_uri "/a") repo_abc).
  - simpl. discriminate.
  - vm_compute. reflexivity.
  - exact range_order_repo_abc.
  - vm_compute. reflexivity.
Defined.

Lemma round_trip_closed_form_witness :
  round_trip uri_path 8 4 (mem_uri "/a") [x01; x02; x03; x04; x05] repo_abc
    = (if decide ([x01; x02; x03; x04; x05] = []
                  ∨ size (<["/a" := []]> (Data repo_abc)) < 5)
       then Done ([x01; x02; x03; x04; x05], None)
              (Data_put repo_abc "/a" [x01; x02; x03; x04; x05])
       else Panicked IndexOutOfRange (Data_put repo_abc "/a" [])).
Proof.
  apply (round_trip_closed_form uri_path 8 4 (mem_uri "/a"));
    [simpl; discriminate | lia | simpl; lia].
Defined.

Lemma Reader_then_Read_witness :
  ∃ r, Reader uri_path (mem_uri "/p") repo_p = Done (Some r, None) repo_p
       ∧ Read [x00; x00; x00; x00] (r, repo_p) =
           Done ([x01; x02; x03] ++ drop 3 [x00; x00; x00; x00], 3, Some EOF)
                (set_readCursor r 3, repo_p).
Proof.
  destruct (Reader_then_Read uri_path (mem_uri "/p") repo_p) as [_ Hread];
    [simpl; discriminate|].
  apply (Hread [x01; x02; x03] [x00; x00; x00; x00]);
    [vm_compute; reflexivity | simpl; lia].
Defined.

Lemma Writer_creates_on_Write_witness :
  ∃ w,
    Writer uri_path (mem_uri "/new") repo_p = Done (Some w, None) repo_p
    ∧ path w = "/new"
    ∧ match Write [x01] (w, repo_p) with
      | Done _ (_, m') | Panicked _ (_, m') =>
          Exists uri_path (mem_uri "/new") m' = Done (true, None) m'
          ∧ CanRead uri_path (mem_uri "/new") m' = Done (true, None) m'
      | OutOfFuel => False
      end.
Proof.
  apply (Writer_creates_on_Write uri_path (mem_uri "/new") [x01] repo_p).
  simpl. discriminate.
Defined.

Lemma Delete_then_access_witness :
  ∃ m',
    Delete uri_path (mem_uri "/p") repo_p = Done None m'
    ∧ Exists uri_path (mem_uri "/p") m' = Done (false, None) m'
    ∧ CanRead uri_path (mem_uri "/p") m' = Done (false, None) m'
    ∧ Reader uri_path (mem_uri "/p") m' = Done (None, Some (ErrNoSuchPath "/p")) m'
    ∧ (∀ n p, path n = "/p" →
         Read p (n, m') = Done (p, 0, Some (ErrNotPresent "/p")) (n, m'))
    ∧ (∀ u2 r, uri_path u2 ≠ "/p" →
         Exists uri_path u2 repo_p = Done r repo_p → Exists uri_path u2 m' = Done r m').
Proof.
  apply (Delete_then_access uri_path (mem_uri "/p") repo_p). simpl. discriminate.
Defined.
